(** * PhotoGrid: the nine-slot image store and the grid compositor

    A shallow embedding of the [PhotoGrid] component: the React state
    [images] (nine [ImageSlot]s), the browser's object-URL registry that
    [URL.createObjectURL] and [URL.revokeObjectURL] act on, the toasts the
    handlers raise, and the canvas commands [downloadGrid] issues.

    The handlers are written in a small state monad over [World]; every
    handler reads the [images] of the world it starts in, as the closure of
    the latest render does. *)

From Stdlib Require Import ZArith Floats.
From stdpp Require Import base list strings gmap pretty.

Local Open Scope Z_scope.
#[local] Set Warnings "-clear-no-such-hyp".

(** ** Data model *)

(** A [File] as the handlers see it: only its declared media type is read. *)
Record File := { name : string; type : string }.

(** A blob URL issued by [URL.createObjectURL]. The registry numbers them in
    order of creation; as a JavaScript value it is a non-empty string, hence
    truthy. *)
Definition ObjectURL := nat.

(** [interface ImageSlot { id: number; file: File | null; preview: string | null }] *)
Record ImageSlot := { id : Z; file : option File; preview : option ObjectURL }.

#[global] Instance File_eq_dec : EqDecision File.
Proof. solve_decision. Defined.
#[global] Instance ImageSlot_eq_dec : EqDecision ImageSlot.
Proof. solve_decision. Defined.

(** The notifications, by the key of their title; [uploadSuccess] carries the
    count shown in its description. *)
Inductive Toast :=
| fileFormatError
| gridFull
| uploadSuccess (count : Z)
| gridReset
| noImages
| downloadSuccess.

(** [variant: "destructive"] marks the three error toasts. *)
Definition destructive (t : Toast) : bool :=
  match t with
  | fileFormatError | gridFull | noImages => true
  | _ => false
  end.

(** What [downloadGrid] does to the document and to its canvas, in order. *)
Inductive CanvasOp :=
| CreateCanvas
| GetContext
| SetWidth (n : Z)
| SetHeight (n : Z)
| FillStyle (colour : string)
| FillRect (x y w h : Z)
| ImageSrc (index : Z) (src : ObjectURL)
| Save
| BeginPath
| Rect (x y w h : Z)
| Clip
| DrawImage (src : ObjectURL) (dx dy dw dh : float)
| Restore
| ToBlob
| Download (href : ObjectURL).

Record World := {
  images : list ImageSlot;      (* the component's state *)
  urls : gset ObjectURL;        (* object URLs created and not yet revoked *)
  nextUrl : ObjectURL;          (* the next URL the registry issues *)
  revoked : list ObjectURL;     (* every revokeObjectURL call, oldest first *)
  toasts : list Toast;          (* every toast raised, oldest first *)
  canvas : list CanvasOp        (* every canvas command, oldest first *)
}.

(** ** The state monad of the handlers *)

Definition M (A : Type) : Type := World → A * World.

#[global] Instance M_ret : MRet M := λ A a w, (a, w).
#[global] Instance M_bind : MBind M :=
  λ A B k m w, let '(a, w') := m w in k a w'.

Definition exec {A} (m : M A) (w : World) : World := (m w).2.

Definition getImages : M (list ImageSlot) := λ w, (images w, w).

Definition setImages (newImages : list ImageSlot) : M unit := λ w,
  (tt, {| images := newImages; urls := urls w; nextUrl := nextUrl w;
          revoked := revoked w; toasts := toasts w; canvas := canvas w |}).

Definition createObjectURL : M ObjectURL := λ w,
  (nextUrl w,
   {| images := images w; urls := {[ nextUrl w ]} ∪ urls w;
      nextUrl := S (nextUrl w); revoked := revoked w; toasts := toasts w;
      canvas := canvas w |}).

Definition revokeObjectURL (u : ObjectURL) : M unit := λ w,
  (tt, {| images := images w; urls := urls w ∖ {[ u ]}; nextUrl := nextUrl w;
          revoked := revoked w ++ [u]; toasts := toasts w;
          canvas := canvas w |}).

Definition toast (t : Toast) : M unit := λ w,
  (tt, {| images := images w; urls := urls w; nextUrl := nextUrl w;
          revoked := revoked w; toasts := toasts w ++ [t];
          canvas := canvas w |}).

Definition emit (op : CanvasOp) : M unit := λ w,
  (tt, {| images := images w; urls := urls w; nextUrl := nextUrl w;
          revoked := revoked w; toasts := toasts w;
          canvas := canvas w ++ [op] |}).

(** ** Arrays *)

(** [arr.findIndex(p)]: the first index whose element satisfies [p], or -1. *)
Fixpoint findIndexFrom {A} (p : A → bool) (arr : list A) (index : Z) : Z :=
  match arr with
  | [] => -1
  | x :: rest => if p x then index else findIndexFrom p rest (index + 1)
  end.

Definition findIndex {A} (p : A → bool) (arr : list A) : Z :=
  findIndexFrom p arr 0.

(** [arr[i]]: [None] stands for [undefined]. *)
Definition array_get {A} (i : Z) (arr : list A) : option A :=
  if 0 <=? i then arr !! Z.to_nat i else None.

(** [arr[i] = v]. Within the array the element is replaced. A negative [i]
    names a property that is not an element, so the elements stay as they
    are. An [i] at or beyond the length would grow the array; the store
    always has nine elements and the only write with a computed index is
    guarded by [targetIndex < 9], so that case does not arise and the
    elements are left as they are here. *)
Definition array_set {A} (i : Z) (v : A) (arr : list A) : list A :=
  if 0 <=? i then <[Z.to_nat i := v]> arr else arr.

(** [arr.forEach(f)] for a callback with effects. *)
Fixpoint forEach {A} (f : A → M unit) (arr : list A) : M unit :=
  match arr with
  | [] => mret tt
  | x :: rest => f x ;; forEach f rest
  end.

(** [arr.forEach((x, index) => f(x, index))]. *)
Fixpoint forEachIdx {A} (f : A → Z → M unit) (arr : list A) (index : Z) : M unit :=
  match arr with
  | [] => mret tt
  | x :: rest => f x index ;; forEachIdx f rest (index + 1)
  end.

(** ** The slot store *)

(** [Array.from({ length: 9 }, (_, i) => ({ id: i, file: null, preview: null }))] *)
Definition emptySlot (i : Z) : ImageSlot :=
  {| id := i; file := None; preview := None |}.

Definition emptyGrid : list ImageSlot := emptySlot <$> seqZ 0 9.

Definition initial : World :=
  {| images := emptyGrid; urls := ∅; nextUrl := 0%nat; revoked := [];
     toasts := []; canvas := [] |}.

(** [file.type.startsWith('image/')] *)
Definition isImage (f : File) : bool := String.prefix "image/" (type f).

(** The body of [imageFiles.forEach((file, index) => ...)] in
    [handleFileSelect], threading the local array [newImages]. *)
Fixpoint placeFiles (startIndex : Z) (imageFiles : list File) (index : Z)
    (newImages : list ImageSlot) : M (list ImageSlot) :=
  match imageFiles with
  | [] => mret newImages
  | file :: rest =>
      let targetIndex := startIndex + index in
      if targetIndex <? 9 then
        preview ← createObjectURL;
        placeFiles startIndex rest (index + 1)
          (array_set targetIndex
             {| id := targetIndex; file := Some file; preview := Some preview |}
             newImages)
      else placeFiles startIndex rest (index + 1) newImages
  end.

Definition handleFileSelect (files : list File) (slotId : option Z) : M unit :=
  let fileArray := files in
  if decide (length fileArray = 0%nat) then mret tt else
  let imageFiles := List.filter isImage fileArray in
  if decide (length imageFiles = 0%nat) then toast fileFormatError else
  images ← getImages;
  let startIndex :=
    match slotId with
    | Some slotId => slotId
    | None => findIndex (λ img, bool_decide (file img = None)) images
    end in
  if decide (startIndex = -1) then toast gridFull else
  newImages ← placeFiles startIndex imageFiles 0 images;
  setImages newImages ;;
  toast (uploadSuccess (Z.min (Z.of_nat (length imageFiles)) (9 - startIndex))).

(** [removeImage] reads [newImages[slotId].preview] first: outside the array
    that read throws a [TypeError] before anything is changed, which is the
    result [None]. *)
Definition removeImage (slotId : Z) : M (option unit) :=
  newImages ← getImages;
  match array_get slotId newImages with
  | None => mret None
  | Some slot =>
      match preview slot with
      | Some p => revokeObjectURL p
      | None => mret tt
      end ;;
      setImages (array_set slotId (emptySlot slotId) newImages) ;;
      mret (Some tt)
  end.

Definition resetGrid : M unit :=
  images ← getImages;
  forEach (λ img, match preview img with
                  | Some p => revokeObjectURL p
                  | None => mret tt
                  end) images ;;
  setImages emptyGrid ;;
  toast gridReset.

(** ** The grid compositor *)

Definition gridSize : Z := 3.
Definition cellSize : Z := 300.
Definition gap : Z := 10.

(** A small non-negative integer as a JavaScript number (an IEEE 754 double). *)
Definition num (z : Z) : float := PrimFloat.of_uint63 (Uint63.of_Z z).

(** What the browser decides during an export: whether [getContext('2d')]
    gives a context, the pixel size each preview decodes to, and whether
    [toBlob] hands its callback a blob. *)
Record Env := {
  ctxAvailable : bool;
  imageSize : ObjectURL → float * float;
  blobAvailable : bool
}.

Record CoverFit := {
  drawWidth : float;
  drawHeight : float;
  offsetX : float;
  offsetY : float
}.

(** The [object-fit: cover] computation of the [onload] callback. *)
Definition coverFit (width height : float) : CoverFit :=
  let aspectRatio := (width / height)%float in
  if (1 <? aspectRatio)%float then
    let drawHeight := num cellSize in
    let drawWidth := (num cellSize * aspectRatio)%float in
    {| drawWidth := drawWidth; drawHeight := drawHeight;
       offsetX := ((- (drawWidth - num cellSize)) / 2)%float;
       offsetY := 0%float |}
  else
    let drawWidth := num cellSize in
    let drawHeight := (num cellSize / aspectRatio)%float in
    {| drawWidth := drawWidth; drawHeight := drawHeight;
       offsetX := 0%float;
       offsetY := ((- (drawHeight - num cellSize)) / 2)%float |}.

(** [image.onload] for the slot at [index], whose preview is [src]. *)
Definition onload (env : Env) (index : Z) (src : ObjectURL) : M unit :=
  let '(width, height) := imageSize env src in
  let row := index `div` gridSize in
  let col := index `rem` gridSize in
  let x := col * (cellSize + gap) in
  let y := row * (cellSize + gap) in
  let fit := coverFit width height in
  emit Save ;;
  emit BeginPath ;;
  emit (Rect x y cellSize cellSize) ;;
  emit Clip ;;
  emit (DrawImage src (num x + offsetX fit) (num y + offsetY fit)
          (drawWidth fit) (drawHeight fit)) ;;
  emit Restore.

(** [downloadGrid]. The promise executors run at once, in index order, and
    start the decode of every filled slot ([image.src = img.preview]); the
    [onload] callbacks run later, one at a time. Every callback draws inside
    its own [save]/[restore] bracket, clipped to its own cell; the trace lists
    them in index order, and an export whose previews all decode is the one
    modelled. *)
Definition downloadGrid (env : Env) : M unit :=
  images ← getImages;
  let filledImages := List.filter (λ img, bool_decide (is_Some (preview img))) images in
  if decide (length filledImages = 0%nat) then toast noImages else
  emit CreateCanvas ;;
  emit GetContext ;;
  if negb (ctxAvailable env) then mret tt else
  let width := gridSize * cellSize + (gridSize - 1) * gap in
  let height := gridSize * cellSize + (gridSize - 1) * gap in
  emit (SetWidth width) ;;
  emit (SetHeight height) ;;
  emit (FillStyle "#ffffff") ;;
  emit (FillRect 0 0 width height) ;;
  forEachIdx (λ img index, match preview img with
                           | Some src => emit (ImageSrc index src)
                           | None => mret tt
                           end) images 0 ;;
  forEachIdx (λ img index, match preview img with
                           | Some src => onload env index src
                           | None => mret tt
                           end) images 0 ;;
  emit ToBlob ;;
  if blobAvailable env then
    url ← createObjectURL;
    emit (Download url) ;;
    revokeObjectURL url ;;
    toast downloadSuccess
  else mret tt.

(** ** Sessions

    The user's actions, and the worlds a session can reach from the initial
    render. A drop on a grid cell passes that cell's [slot.id]; the remove
    button of a cell passes the same; the file picker and the upload zone pass
    no slot. *)

Definition validSlot (slotId : Z) : Prop := 0 ≤ slotId < 9.

Inductive Action :=
| Select (files : list File) (slotId : option Z)
| Remove (slotId : Z)
| Reset
| Export (env : Env).

Definition validAction (a : Action) : Prop :=
  match a with
  | Select _ (Some slotId) => validSlot slotId
  | Remove slotId => validSlot slotId
  | _ => True
  end.

Definition perform (a : Action) : M unit :=
  match a with
  | Select files slotId => handleFileSelect files slotId
  | Remove slotId => removeImage slotId ;; mret tt
  | Reset => resetGrid
  | Export env => downloadGrid env
  end.

Definition run (session : list Action) : World :=
  exec (forEach perform session) initial.

Inductive reachable : World → Prop :=
| reachable_initial : reachable initial
| reachable_perform w a :
    reachable w → validAction a → reachable (exec (perform a) w).

(** ** Vocabulary of the statements *)

(** A slot is empty when it holds no file, as [handleFileSelect] tests it. *)
Definition emptySlotP (s : ImageSlot) : Prop := file s = None.

(** The previews the slots hold, in index order. *)
Definition previews (slots : list ImageSlot) : list ObjectURL :=
  omap preview slots.

(** A file is accepted exactly when its declared type begins with
    ["image/"]. *)
Definition imageTyped (f : File) : Prop :=
  ∃ rest, type f = String.append "image/" rest.

(** The start position [handleFileSelect] settles on. *)
Definition startOf (slotId : option Z) (slots : list ImageSlot) : Z :=
  match slotId with
  | Some slotId => slotId
  | None => findIndex (λ img, bool_decide (file img = None)) slots
  end.

(** An object URL that is live while no slot holds it. *)
Definition leaked (u : ObjectURL) (w : World) : Prop :=
  u ∈ urls w ∧ u ∉ previews (images w).

(** The registry holds the previews of the slots and nothing else. *)
Definition tight (w : World) : Prop :=
  urls w = list_to_set (previews (images w)).

(** An action that writes no file over a filled slot: for a selection, every
    slot from the start position to the last accepted file is empty. *)
Definition writesOnEmpty (a : Action) (w : World) : Prop :=
  match a with
  | Select files slotId =>
      ∀ (j : Z) s,
        startOf slotId (images w) ≤ j <
          startOf slotId (images w) + Z.of_nat (length (List.filter isImage files)) →
        array_get j (images w) = Some s → emptySlotP s
  | _ => True
  end.

(** The number of files that land on the grid from position [t] on. *)
Definition placedCount (imageFiles : list File) (t : Z) : nat :=
  Z.to_nat (Z.min (Z.of_nat (length imageFiles)) (9 - t)).

(** The placement the specification words for an insert without a target:
    walk the slots in index order and give each empty one the next file,
    until the files run out; filled slots are passed over. *)
Fixpoint fillFirstEmpty (files : list File) (slots : list (option File)) :
    list (option File) :=
  match slots with
  | [] => []
  | Some held :: rest => Some held :: fillFirstEmpty files rest
  | None :: rest =>
      match files with
      | [] => None :: fillFirstEmpty [] rest
      | f :: files' => Some f :: fillFirstEmpty files' rest
      end
  end.

(** ** The invariant of the store and the registry

    [Inv slots w] relates a slot array (the state itself, or the local copy a
    handler is filling) to the registry of [w]: nine slots, each carrying its
    own index; a file and a preview come together; every preview held is a
    live URL and no two slots hold the same one; the registry has issued only
    URLs below [nextUrl]; a revoked URL is no longer live and was revoked
    once. *)

Record Inv (slots : list ImageSlot) (w : World) : Prop := {
  inv_length : length slots = 9%nat;
  inv_id : ∀ (i : nat) s, slots !! i = Some s → id s = Z.of_nat i;
  inv_filled : ∀ (i : nat) s, slots !! i = Some s →
      file s = None ↔ preview s = None;
  inv_live : ∀ (i : nat) s u, slots !! i = Some s → preview s = Some u →
      u ∈ urls w;
  inv_owner : ∀ (i j : nat) s s' u,
      slots !! i = Some s → slots !! j = Some s' →
      preview s = Some u → preview s' = Some u → i = j;
  inv_issued : ∀ u, u ∈ urls w → (u < nextUrl w)%nat;
  inv_revoked : ∀ u, u ∈ revoked w → (u < nextUrl w)%nat ∧ u ∉ urls w;
  inv_once : NoDup (revoked w)
}.

Definition wf (w : World) : Prop := Inv (images w) w.

(** ** The trace of an export, as lists *)

(** Appending a run of canvas commands. *)
Definition emitAll (ops : list CanvasOp) : M unit := λ w,
  (tt, {| images := images w; urls := urls w; nextUrl := nextUrl w;
          revoked := revoked w; toasts := toasts w;
          canvas := canvas w ++ ops |}).

(** The six commands one [onload] callback issues. *)
Definition cellOps (env : Env) (index : Z) (src : ObjectURL) : list CanvasOp :=
  let '(width, height) := imageSize env src in
  let x := (index `rem` gridSize) * (cellSize + gap) in
  let y := (index `div` gridSize) * (cellSize + gap) in
  let fit := coverFit width height in
  [Save; BeginPath; Rect x y cellSize cellSize; Clip;
   DrawImage src (num x + offsetX fit) (num y + offsetY fit)
     (drawWidth fit) (drawHeight fit);
   Restore].

(** The commands of a [forEachIdx] whose callback only draws. *)
Fixpoint opsIdx (g : Z → ObjectURL → list CanvasOp) (slots : list ImageSlot)
    (index : Z) : list CanvasOp :=
  match slots with
  | [] => []
  | img :: rest =>
      match preview img with
      | Some src => g index src
      | None => []
      end ++ opsIdx g rest (index + 1)
  end.

Definition canvasSide : Z := gridSize * cellSize + (gridSize - 1) * gap.

(** An export up to and including [toBlob]. *)
Definition paintOps (env : Env) (slots : list ImageSlot) : list CanvasOp :=
  [CreateCanvas; GetContext; SetWidth canvasSide; SetHeight canvasSide;
   FillStyle "#ffffff"; FillRect 0 0 canvasSide canvasSide]
  ++ opsIdx (λ index src, [ImageSrc index src]) slots 0
  ++ opsIdx (cellOps env) slots 0
  ++ [ToBlob].

(** The whole trace of an export that finds a preview and gets a context. *)
Definition exportOps (env : Env) (w : World) : list CanvasOp :=
  paintOps env (images w)
  ++ (if blobAvailable env then [Download (nextUrl w)] else []).

(** ** Sample files, stores and browsers *)

Definition png : File := {| name := "a.png"; type := "image/png" |}.
Definition jpg : File := {| name := "b.jpg"; type := "image/jpeg" |}.
Definition gif : File := {| name := "c.gif"; type := "image/gif" |}.
Definition txt : File := {| name := "notes.txt"; type := "text/plain" |}.

(** The store after two files were added and the first was removed: slot 0
    empty, slot 1 filled, slots 2 to 8 empty. *)
Definition gappedStore : World :=
  run [Select [png; jpg] None; Remove 0].

(** The session that replaces the content of slot 0: one file through the
    picker, then another dropped on cell 0. *)
Definition replacedStore : World :=
  run [Select [png] None; Select [jpg] (Some 0)].

(** The store after nine files came through the picker: no slot is empty. *)
Definition fullStore : World :=
  run [Select [png; jpg; gif; png; jpg; gif; png; jpg; gif] None].

(** A browser that gives a context and a blob and decodes every preview to
    600 x 300 pixels. *)
Definition viewer : Env :=
  {| ctxAvailable := true;
     imageSize := λ _, (600%float, 300%float);
     blobAvailable := true |}.

(** ** Drag state and the rendered grid *)

(** The component's state: [images], with the registry and the logs around
    it, and the two pieces of drag state. *)
Record Ui := {
  world : World;
  isDragging : bool;
  dragOverSlot : option Z
}.

Definition initialUi : Ui :=
  {| world := initial; isDragging := false; dragOverSlot := None |}.

(** What [handleDragLeave] reads of its event: [e.relatedTarget], a node or
    null, and [e.currentTarget.contains]. *)
Record DragEvent := {
  relatedTarget : option nat;
  currentTargetContains : nat → bool
}.

Definition handleDrop (files : list File) (slotId : option Z) (ui : Ui) : Ui :=
  {| world := exec (handleFileSelect files slotId) (world ui);
     isDragging := false;
     dragOverSlot := None |}.

(** [setDragOverSlot(slotId || null)]: an absent slot and slot 0 are both
    falsy. *)
Definition handleDragOver (slotId : option Z) (ui : Ui) : Ui :=
  {| world := world ui;
     isDragging := true;
     dragOverSlot :=
       match slotId with
       | Some slotId => if decide (slotId = 0) then None else Some slotId
       | None => None
       end |}.

Definition handleDragLeave (e : DragEvent) (ui : Ui) : Ui :=
  if match relatedTarget e with
     | None => true
     | Some node => negb (currentTargetContains e node)
     end
  then {| world := world ui; isDragging := false; dragOverSlot := None |}
  else ui.

(** One cell of [images.map((slot) => ...)] as rendered. *)
Record CellView := {
  key : Z;                 (* key={slot.id} *)
  filled : bool;           (* class filled rather than empty: slot.file *)
  dragOver : bool;         (* class drag-over: dragOverSlot === slot.id *)
  img : option ObjectURL;  (* slot.preview: the image with its remove
                              button, or else the placeholder *)
  label : Z                (* slot.id + 1, in the alt text and placeholder *)
}.

Definition renderCell (ui : Ui) (slot : ImageSlot) : CellView :=
  {| key := id slot;
     filled := bool_decide (is_Some (file slot));
     dragOver := bool_decide (dragOverSlot ui = Some (id slot));
     img := preview slot;
     label := id slot + 1 |}.

Definition renderCells (ui : Ui) : list CellView :=
  renderCell ui <$> images (world ui).

(** The upload zone's drag-over class: [isDragging && dragOverSlot === null]. *)
Definition uploadZoneDragOver (ui : Ui) : bool :=
  isDragging ui && bool_decide (dragOverSlot ui = None).

(** ** Counting canvas commands *)







(** ** The language context *)

Module I18n.

Inductive Language := zh | en.

#[global] Instance Language_eq_dec : EqDecision Language.
Proof. solve_decision. Defined.

(** The value of a [Language] as the string it is. *)
Definition tag (l : Language) : string :=
  match l with zh => "zh" | en => "en" end.

Definition quote : string := String (Ascii.ascii_of_nat 34) EmptyString.

Definition table_zh : list (string * string) :=
  [ ("title", "九宫格照片工具");
    ("subtitle", "制作时尚的社交媒体图片拼接，适用于朋友圈、Instagram等平台");
    ("uploadImages", "上传图片");
    ("downloadGrid", "下载九宫格");
    ("resetGrid", "重置网格");
    ("dragHere", "拖拽图片到这里");
    ("orClick", ("或点击上方" +:+ quote +:+ "上传图片" +:+ quote +:+ "按钮选择文件"));
    ("supportedFormats", "支持 JPG、PNG、GIF 格式，最多上传 9 张图片");
    ("position", "位置");
    ("fileFormatError", "文件格式错误");
    ("fileFormatErrorDesc", "请上传图片文件（JPG, PNG, GIF等）");
    ("gridFull", "网格已满");
    ("gridFullDesc", "请先删除一些图片或重置网格");
    ("uploadSuccess", "图片上传成功");
    ("uploadSuccessDesc", "已添加");
    ("uploadSuccessDesc2", "张图片");
    ("gridReset", "网格已重置");
    ("gridResetDesc", "所有图片已清除");
    ("noImages", "没有图片");
    ("noImagesDesc", "请先上传一些图片");
    ("downloadSuccess", "下载成功");
    ("downloadSuccessDesc", "九宫格图片已保存到您的设备");
    ("metaDescription", "免费在线九宫格照片制作工具，轻松制作朋友圈、Instagram风格的图片拼接。支持拖拽上传，一键生成时尚九宫格图片布局。");
    ("metaKeywords", "九宫格,照片拼接,朋友圈图片,Instagram网格,图片制作工具,在线拼图") ].

Definition table_en : list (string * string) :=
  [ ("title", "Photo Grid Tool");
    ("subtitle", "Create stylish social media photo collages for WeChat Moments, Instagram and other platforms");
    ("uploadImages", "Upload Images");
    ("downloadGrid", "Download Grid");
    ("resetGrid", "Reset Grid");
    ("dragHere", "Drag images here");
    ("orClick", ("or click the " +:+ quote +:+ "Upload Images" +:+ quote +:+ " button above to select files"));
    ("supportedFormats", "Supports JPG, PNG, GIF formats, up to 9 images");
    ("position", "Position");
    ("fileFormatError", "File format error");
    ("fileFormatErrorDesc", "Please upload image files (JPG, PNG, GIF, etc.)");
    ("gridFull", "Grid is full");
    ("gridFullDesc", "Please delete some images or reset the grid first");
    ("uploadSuccess", "Images uploaded successfully");
    ("uploadSuccessDesc", "Added");
    ("uploadSuccessDesc2", "images");
    ("gridReset", "Grid reset");
    ("gridResetDesc", "All images have been cleared");
    ("noImages", "No images");
    ("noImagesDesc", "Please upload some images first");
    ("downloadSuccess", "Download successful");
    ("downloadSuccessDesc", "Grid image has been saved to your device");
    ("metaDescription", "Free online photo grid maker tool. Easily create WeChat Moments and Instagram-style photo collages. Supports drag & drop upload and one-click stylish grid generation.");
    ("metaKeywords", "photo grid,photo collage,WeChat moments,Instagram grid,photo maker tool,online collage") ].

Definition translations (l : Language) : gmap string string :=
  list_to_map (match l with zh => table_zh | en => table_en end).

(** [translations[language][key] || key], for a key that is not the name of
    a member every object inherits ([toString], [constructor], ...): for
    those the lookup finds the inherited member. The component asks only
    for keys written out in its source, none of which is such a name. *)
Definition t (language : Language) (key : string) : string :=
  match translations language !! key with
  | Some text => if decide (text = "") then key else text
  | None => key
  end.

(** The names every object inherits. *)
Definition inheritedKeys : list string :=
  ["constructor"; "hasOwnProperty"; "isPrototypeOf"; "propertyIsEnumerable";
   "toLocaleString"; "toString"; "valueOf"; "__proto__";
   "__defineGetter__"; "__defineSetter__";
   "__lookupGetter__"; "__lookupSetter__"].

(** What the provider reads and writes outside React: the entry
    [photo-grid-language] of [localStorage], [navigator.language], and the
    document's language, title and the two meta tags (absent, or present
    with a content). *)
Record Browser := {
  storage : option string;
  navigatorLanguage : string;
  documentLang : string;
  metaDescription : option string;
  metaKeywords : option string;
  documentTitle : string
}.

Record Context := {
  language : Language;
  browser : Browser
}.

(** [useState<Language>('zh')] on a page. *)
Definition initialContext (b : Browser) : Context :=
  {| language := zh; browser := b |}.

(** [toLowerCase] on the letters A to Z; a language tag has no other
    letters, and no other character lowers to a [z] or an [h]. *)
Definition lowerChar (c : Ascii.ascii) : Ascii.ascii :=
  let n := Ascii.nat_of_ascii c in
  if ((65 <=? n) && (n <=? 90))%nat then Ascii.ascii_of_nat (n + 32) else c.

Fixpoint toLowerCase (s : string) : string :=
  match s with
  | EmptyString => EmptyString
  | String c rest => String (lowerChar c) (toLowerCase rest)
  end.

(** [s.includes(needle)] *)
Fixpoint includes (s needle : string) : bool :=
  String.prefix needle s ||
  match s with
  | EmptyString => false
  | String _ rest => includes rest needle
  end.

(** The auto-detection branch of the mount effect. *)
Definition detect (navigatorLanguage : string) : Language :=
  let browserLanguage := toLowerCase navigatorLanguage in
  if includes browserLanguage "zh" then zh else en.

(** The [useEffect] that runs once after the first render. It calls the
    state setter itself, not [handleSetLanguage]. *)
Definition mountEffect (c : Context) : Context :=
  let savedLanguage := storage (browser c) in
  match savedLanguage with
  | Some "zh" => {| language := zh; browser := browser c |}
  | Some "en" => {| language := en; browser := browser c |}
  | _ => {| language := detect (navigatorLanguage (browser c));
            browser := browser c |}
  end.

Definition titleOf (lang : Language) : string :=
  match lang with
  | zh => "九宫格照片工具 - 社交媒体图片拼接神器"
  | en => "Photo Grid Tool - Social Media Photo Collage Maker"
  end.

(** [translations[lang].metaDescription], a key written out in the source. *)
Definition entry (lang : Language) (key : string) : string :=
  default "" (translations lang !! key).

Definition handleSetLanguage (lang : Language) (c : Context) : Context :=
  let b := browser c in
  {| language := lang;
     browser :=
       {| storage := Some (tag lang);
          navigatorLanguage := navigatorLanguage b;
          documentLang := tag lang;
          metaDescription :=
            match metaDescription b with
            | Some _ => Some (entry lang "metaDescription")
            | None => None
            end;
          metaKeywords :=
            match metaKeywords b with
            | Some _ => Some (entry lang "metaKeywords")
            | None => None
            end;
          documentTitle := titleOf lang |} |}.

(** [LanguageToggle]: the click handler and the button's text. *)
Definition toggleLanguage (c : Context) : Context :=
  handleSetLanguage (match language c with zh => en | en => zh end) c.

Definition toggleLabel (c : Context) : string :=
  match language c with zh => "EN" | en => "中文" end.

(** The keys the grid component passes to [t]. *)
Definition componentKeys : list string :=
  ["title"; "subtitle"; "uploadImages"; "downloadGrid"; "resetGrid";
   "dragHere"; "orClick"; "supportedFormats"; "position";
   "fileFormatError"; "fileFormatErrorDesc"; "gridFull"; "gridFullDesc";
   "uploadSuccess"; "uploadSuccessDesc"; "uploadSuccessDesc2";
   "gridReset"; "gridResetDesc"; "noImages"; "noImagesDesc";
   "downloadSuccess"; "downloadSuccessDesc"].




End I18n.

(** The page of a first visit by an English-speaking browser. *)
Definition firstVisit : I18n.Browser :=
  {| I18n.storage := None;
     I18n.navigatorLanguage := "en-US";
     I18n.documentLang := "zh";
     I18n.metaDescription := Some "";
     I18n.metaKeywords := None;
     I18n.documentTitle := "" |}.

(** * Properties *)

(** ** Arrays *)

Section Arrays.
Context {A : Type}.
Implicit Types (arr : list A) (i j : Z) (v : A) (p : A → bool).

Lemma array_set_length i v arr : length (array_set i v arr) = length arr.
Proof. unfold array_set. case_match; [apply length_insert | done]. Qed.

Lemma array_get_set_eq i v arr :
  0 ≤ i < Z.of_nat (length arr) → array_get i (array_set i v arr) = Some v.
Proof.
  intros Hi. unfold array_get, array_set.
  destruct (Z.leb_spec 0 i); [|lia].
  apply list_lookup_insert_eq. lia.
Qed.

Lemma array_get_set_ne i j v arr :
  i ≠ j → array_get j (array_set i v arr) = array_get j arr.
Proof.
  intros Hne. unfold array_get, array_set.
  destruct (Z.leb_spec 0 j); [|done].
  destruct (Z.leb_spec 0 i); [|done].
  apply list_lookup_insert_ne. lia.
Qed.

Lemma array_get_nat (n : nat) arr : array_get (Z.of_nat n) arr = arr !! n.
Proof.
  unfold array_get. destruct (Z.leb_spec 0 (Z.of_nat n)); [|lia].
  by rewrite Nat2Z.id.
Qed.

Lemma array_get_Some i arr v :
  array_get i arr = Some v → 0 ≤ i < Z.of_nat (length arr).
Proof.
  unfold array_get. destruct (Z.leb_spec 0 i) as [Hle|Hlt]; [|done].
  intros Hlen%lookup_lt_Some. lia.
Qed.

Lemma array_get_lookup i arr v :
  array_get i arr = Some v → arr !! Z.to_nat i = Some v.
Proof. unfold array_get. by destruct (0 <=? i). Qed.

Lemma array_get_is_Some i arr :
  0 ≤ i < Z.of_nat (length arr) → is_Some (array_get i arr).
Proof.
  intros Hi. unfold array_get. destruct (Z.leb_spec 0 i); [|lia].
  apply lookup_lt_is_Some. lia.
Qed.

(** [findIndex] gives -1 exactly when no element passes the test;
    otherwise it gives the position of the first that does. *)
Lemma findIndexFrom_spec p arr index :
  0 ≤ index →
  (findIndexFrom p arr index = -1 ∧ Forall (λ x, p x = false) arr) ∨
  (∃ (n : nat) x,
      findIndexFrom p arr index = index + Z.of_nat n ∧
      arr !! n = Some x ∧ p x = true ∧
      Forall (λ y, p y = false) (take n arr)).
Proof.
  revert index. induction arr as [|x rest IH]; intros index Hidx; simpl.
  - left. by split.
  - destruct (p x) eqn:Hpx.
    + right. exists 0%nat, x. repeat split; [lia | done | by simpl].
    + destruct (IH (index + 1)) as [[Hr Hall]|(n & y & Hr & Hy & Hpy & Hall)]; [lia| |].
      * left. split; [done | by constructor].
      * right. exists (S n), y. repeat split; [lia | done | done |].
        simpl. by constructor.
Qed.

Lemma findIndex_none p arr :
  findIndex p arr = -1 ↔ Forall (λ x, p x = false) arr.
Proof.
  unfold findIndex.
  destruct (findIndexFrom_spec p arr 0) as [[Hr Hall]|(n & x & Hr & Hx & Hpx & Hall)]; [lia| |].
  - done.
  - split; [lia |]. intros HF.
    rewrite Forall_lookup in HF. specialize (HF _ _ Hx). congruence.
Qed.

Lemma findIndex_found p arr :
  findIndex p arr ≠ -1 →
  ∃ (n : nat) x, findIndex p arr = Z.of_nat n ∧ arr !! n = Some x ∧
                 p x = true ∧ Forall (λ y, p y = false) (take n arr).
Proof.
  unfold findIndex. intros Hne.
  destruct (findIndexFrom_spec p arr 0) as [[Hr Hall]|(n & x & Hr & Hx & Hpx & Hall)];
    [lia | done |].
  exists n, x. repeat split; [lia | done..].
Qed.
End Arrays.

(** ** Placement *)

Lemma placeFiles_nil startIndex index newImages w :
  placeFiles startIndex [] index newImages w = (newImages, w).
Proof. done. Qed.

Lemma placeFiles_cons_lt startIndex f rest index newImages w :
  startIndex + index < 9 →
  placeFiles startIndex (f :: rest) index newImages w =
  placeFiles startIndex rest (index + 1)
    (array_set (startIndex + index)
       {| id := startIndex + index; file := Some f; preview := Some (nextUrl w) |}
       newImages)
    (createObjectURL w).2.
Proof.
  intros Hlt. simpl. destruct (Z.ltb_spec (startIndex + index) 9); [done | lia].
Qed.

Lemma placeFiles_cons_ge startIndex f rest index newImages w :
  9 ≤ startIndex + index →
  placeFiles startIndex (f :: rest) index newImages w =
  placeFiles startIndex rest (index + 1) newImages w.
Proof.
  intros Hge. simpl. destruct (Z.ltb_spec (startIndex + index) 9); [lia | done].
Qed.

(** Placement touches the registry only: the state, the toasts, the
    revocations and the canvas are as before. *)
Lemma placeFiles_frame startIndex imageFiles index newImages w :
  let r := placeFiles startIndex imageFiles index newImages w in
  images r.2 = images w ∧ toasts r.2 = toasts w ∧
  revoked r.2 = revoked w ∧ canvas r.2 = canvas w.
Proof.
  revert index newImages w.
  induction imageFiles as [|f rest IH]; intros index newImages w; [done|].
  destruct (Z.lt_ge_cases (startIndex + index) 9) as [Hlt|Hge].
  - rewrite placeFiles_cons_lt by done.
    exact (IH (index + 1) _ (createObjectURL w).2).
  - rewrite placeFiles_cons_ge by done. apply IH.
Qed.

Lemma placedCount_nil t : placedCount [] t = 0%nat.
Proof. unfold placedCount. simpl. lia. Qed.

Lemma placedCount_cons_lt f rest t :
  t < 9 → placedCount (f :: rest) t = S (placedCount rest (t + 1)).
Proof. unfold placedCount. simpl length. lia. Qed.

Lemma placedCount_ge imageFiles t : 9 ≤ t → placedCount imageFiles t = 0%nat.
Proof. unfold placedCount. lia. Qed.

(** One object URL is created per file that lands, numbered from [nextUrl]. *)
Lemma placeFiles_registry startIndex imageFiles index newImages w :
  let r := placeFiles startIndex imageFiles index newImages w in
  let n := placedCount imageFiles (startIndex + index) in
  nextUrl r.2 = (nextUrl w + n)%nat ∧
  urls r.2 = list_to_set (seq (nextUrl w) n) ∪ urls w.
Proof.
  revert index newImages w.
  induction imageFiles as [|f rest IH]; intros index newImages w; cbv zeta.
  - rewrite placedCount_nil. simpl. split; [lia | set_solver].
  - destruct (Z.lt_ge_cases (startIndex + index) 9) as [Hlt|Hge].
    + rewrite placeFiles_cons_lt, placedCount_cons_lt by done.
      destruct (IH (index + 1) (array_set (startIndex + index)
                  {| id := startIndex + index; file := Some f;
                     preview := Some (nextUrl w) |} newImages)
                  (createObjectURL w).2) as [Hn Hu].
      rewrite Hn, Hu, Z.add_assoc. simpl. split; [lia | set_solver].
    + rewrite placeFiles_cons_ge, placedCount_ge by done.
      destruct (IH (index + 1) newImages w) as [Hn Hu].
      rewrite Hn, Hu, placedCount_ge by lia. done.
Qed.

(** Slots outside the written range keep their content. *)
Lemma placeFiles_other startIndex imageFiles index newImages w (j : Z) :
  j < startIndex + index ∨
    startIndex + index + Z.of_nat (length imageFiles) ≤ j →
  array_get j (placeFiles startIndex imageFiles index newImages w).1 =
  array_get j newImages.
Proof.
  revert index newImages w.
  induction imageFiles as [|f rest IH]; intros index newImages w Hj; [done|].
  simpl length in Hj.
  destruct (Z.lt_ge_cases (startIndex + index) 9) as [Hlt|Hge].
  - rewrite placeFiles_cons_lt by done.
    rewrite IH by lia. apply array_get_set_ne. lia.
  - rewrite placeFiles_cons_ge by done. apply IH. lia.
Qed.

Lemma placeFiles_length startIndex imageFiles index newImages w :
  length (placeFiles startIndex imageFiles index newImages w).1 = length newImages.
Proof.
  revert index newImages w.
  induction imageFiles as [|f rest IH]; intros index newImages w; [done|].
  destruct (Z.lt_ge_cases (startIndex + index) 9) as [Hlt|Hge].
  - rewrite placeFiles_cons_lt by done. rewrite IH. apply array_set_length.
  - rewrite placeFiles_cons_ge by done. apply IH.
Qed.

(** The [k]-th accepted file lands [k] positions after the start, with the
    [k]-th new object URL, as long as that position is on the grid. *)
Lemma placeFiles_placed startIndex imageFiles index newImages w (k : nat) f :
  length newImages = 9%nat →
  0 ≤ startIndex + index →
  imageFiles !! k = Some f →
  startIndex + index + Z.of_nat k < 9 →
  array_get (startIndex + index + Z.of_nat k)
    (placeFiles startIndex imageFiles index newImages w).1 =
  Some {| id := startIndex + index + Z.of_nat k; file := Some f;
          preview := Some (nextUrl w + k)%nat |}.
Proof.
  revert k index newImages w.
  induction imageFiles as [|g rest IH]; intros k index newImages w Hlen H0 Hk Hlt;
    [done|].
  rewrite placeFiles_cons_lt by lia.
  destruct k as [|k]; simpl in Hk.
  - injection Hk as ->.
    rewrite placeFiles_other by lia.
    rewrite Z.add_0_r, Nat.add_0_r. apply array_get_set_eq. lia.
  - specialize (IH k (index + 1)
      (array_set (startIndex + index)
         {| id := startIndex + index; file := Some g; preview := Some (nextUrl w) |}
         newImages) (createObjectURL w).2).
    rewrite array_set_length in IH.
    replace (startIndex + index + Z.of_nat (S k))
      with (startIndex + (index + 1) + Z.of_nat k) by lia.
    rewrite IH by (done || lia). simpl.
    by replace (S (nextUrl w + k)) with (nextUrl w + S k)%nat by lia.
Qed.

(** ** The invariant under placement *)

Lemma emptyGrid_lookup (i : nat) s :
  emptyGrid !! i = Some s → s = emptySlot (Z.of_nat i).
Proof.
  unfold emptyGrid. rewrite list_lookup_fmap.
  destruct (seqZ 0 9 !! i) as [z|] eqn:Hz; [|done].
  apply lookup_seqZ in Hz as [-> _]. simpl. by intros [= <-].
Qed.

Lemma Inv_emptyGrid w :
  (∀ u, u ∈ urls w → (u < nextUrl w)%nat) →
  (∀ u, u ∈ revoked w → (u < nextUrl w)%nat ∧ u ∉ urls w) →
  NoDup (revoked w) →
  Inv emptyGrid w.
Proof.
  intros Hi Hr Ho. split; try done.
  - by intros i s ->%emptyGrid_lookup.
  - by intros i s ->%emptyGrid_lookup.
  - by intros i s u ->%emptyGrid_lookup.
  - by intros i j s s' u ->%emptyGrid_lookup.
Qed.

Lemma wf_initial : wf initial.
Proof.
  apply Inv_emptyGrid; simpl.
  - intros u Hu. set_solver.
  - intros u Hu. by apply elem_of_nil in Hu.
  - constructor.
Qed.

(** Writing a file with a newly created object URL into a slot on the grid. *)
Lemma Inv_place slots w (t : Z) f :
  Inv slots w → 0 ≤ t < 9 →
  Inv (array_set t {| id := t; file := Some f; preview := Some (nextUrl w) |} slots)
      (createObjectURL w).2.
Proof.
  intros [Hlen Hid Hfill Hlive Hown Hiss Hrev Honce] Ht.
  assert (∀ (i : nat) s, slots !! i = Some s → preview s ≠ Some (nextUrl w)) as Hfresh.
  { intros i s Hs Hp. specialize (Hiss _ (Hlive _ _ _ Hs Hp)). lia. }
  unfold array_set. destruct (Z.leb_spec 0 t); [|lia].
  split; simpl.
  - by rewrite length_insert.
  - intros i s Hs. destruct (decide (i = Z.to_nat t)) as [->|Hne].
    + rewrite list_lookup_insert_eq in Hs by lia. injection Hs as <-. simpl. lia.
    + rewrite list_lookup_insert_ne in Hs by done. eauto.
  - intros i s Hs. destruct (decide (i = Z.to_nat t)) as [->|Hne].
    + rewrite list_lookup_insert_eq in Hs by lia. by injection Hs as <-.
    + rewrite list_lookup_insert_ne in Hs by done. eauto.
  - intros i s u Hs Hp. destruct (decide (i = Z.to_nat t)) as [->|Hne].
    + rewrite list_lookup_insert_eq in Hs by lia. injection Hs as <-.
      simpl in Hp. injection Hp as <-. set_solver.
    + rewrite list_lookup_insert_ne in Hs by done.
      apply elem_of_union_r. eauto.
  - intros i j s s' u Hs Hs' Hp Hp'.
    destruct (decide (i = Z.to_nat t)) as [->|Hi];
      destruct (decide (j = Z.to_nat t)) as [->|Hj]; [done|..].
    + rewrite list_lookup_insert_eq in Hs by lia. injection Hs as <-.
      rewrite list_lookup_insert_ne in Hs' by done.
      simpl in Hp. injection Hp as <-. by destruct (Hfresh _ _ Hs').
    + rewrite list_lookup_insert_eq in Hs' by lia. injection Hs' as <-.
      rewrite list_lookup_insert_ne in Hs by done.
      simpl in Hp'. injection Hp' as <-. by destruct (Hfresh _ _ Hs).
    + rewrite list_lookup_insert_ne in Hs, Hs' by done. eauto.
  - intros u [->%elem_of_singleton|Hu%Hiss]%elem_of_union; lia.
  - intros u Hu. destruct (Hrev _ Hu) as [Hlt Hnot]. split; [lia|].
    intros [->%elem_of_singleton|?]%elem_of_union; [lia | done].
  - done.
Qed.

Lemma placeFiles_Inv startIndex imageFiles index newImages w :
  0 ≤ startIndex + index → Inv newImages w →
  let r := placeFiles startIndex imageFiles index newImages w in Inv r.1 r.2.
Proof.
  revert index newImages w.
  induction imageFiles as [|f rest IH]; intros index newImages w H0 HI; [done|].
  cbv zeta. destruct (Z.lt_ge_cases (startIndex + index) 9) as [Hlt|Hge].
  - rewrite placeFiles_cons_lt by done.
    apply IH; [lia |]. by apply Inv_place.
  - rewrite placeFiles_cons_ge by done. apply IH; [lia | done].
Qed.

(** The invariant does not read the state, the toasts or the canvas. *)
Lemma Inv_registry slots w w' :
  urls w' = urls w → nextUrl w' = nextUrl w → revoked w' = revoked w →
  Inv slots w → Inv slots w'.
Proof.
  intros Hu Hn Hr [Hlen Hid Hfill Hlive Hown Hiss Hrev Honce].
  split; rewrite ?Hu, ?Hn, ?Hr; done.
Qed.

(** ** The four ways [handleFileSelect] ends *)

Lemma length_zero_iff_nil {A} (l : list A) : length l = 0%nat ↔ l = [].
Proof. destruct l; simpl; split; (done || lia). Qed.

Lemma handleFileSelect_empty slotId w :
  handleFileSelect [] slotId w = (tt, w).
Proof. done. Qed.

Lemma handleFileSelect_rejected files slotId w :
  files ≠ [] → List.filter isImage files = [] →
  handleFileSelect files slotId w = toast fileFormatError w.
Proof.
  intros Hne Hnone. unfold handleFileSelect.
  destruct (decide (length files = 0%nat)) as [->%length_zero_iff_nil|_]; [done|].
  rewrite Hnone. done.
Qed.

Lemma filter_nonempty files :
  List.filter isImage files ≠ [] → files ≠ [].
Proof. by intros Hne ->. Qed.

Lemma handleFileSelect_full files slotId w :
  List.filter isImage files ≠ [] → startOf slotId (images w) = -1 →
  handleFileSelect files slotId w = toast gridFull w.
Proof.
  intros Hne Hfull. pose proof (filter_nonempty _ Hne) as Hfiles.
  unfold handleFileSelect.
  destruct (decide (length files = 0%nat)) as [?%length_zero_iff_nil|_]; [done|].
  destruct (decide (length (List.filter isImage files) = 0%nat))
    as [?%length_zero_iff_nil|_]; [done|].
  unfold mbind, M_bind, getImages. fold (startOf slotId (images w)).
  rewrite Hfull. done.
Qed.

Lemma handleFileSelect_placed files slotId w :
  List.filter isImage files ≠ [] → startOf slotId (images w) ≠ -1 →
  handleFileSelect files slotId w =
  let imageFiles := List.filter isImage files in
  let startIndex := startOf slotId (images w) in
  let r := placeFiles startIndex imageFiles 0 (images w) w in
  toast (uploadSuccess (Z.min (Z.of_nat (length imageFiles)) (9 - startIndex)))
        (setImages r.1 r.2).2.
Proof.
  intros Hne Hstart. pose proof (filter_nonempty _ Hne) as Hfiles.
  unfold handleFileSelect.
  destruct (decide (length files = 0%nat)) as [?%length_zero_iff_nil|_]; [done|].
  destruct (decide (length (List.filter isImage files) = 0%nat))
    as [?%length_zero_iff_nil|_]; [done|].
  unfold mbind, M_bind, getImages. fold (startOf slotId (images w)).
  destruct (decide (startOf slotId (images w) = -1)); [done|].
  cbv zeta.
  by destruct (placeFiles (startOf slotId (images w)) (List.filter isImage files)
                 0 (images w) w).
Qed.

(** Case analysis on the way [handleFileSelect files slotId w] ends: no files,
    no image among them, no room, or a placement. *)
Ltac handleFileSelect_cases files slotId w :=
  let Hfiles := fresh "Hfiles" in
  let Hnone := fresh "Hnone" in
  let Hsome := fresh "Hsome" in
  let Hfull := fresh "Hfull" in
  let Hstart := fresh "Hstart" in
  destruct (decide (files = [])) as [->|Hfiles];
  [ rewrite ?handleFileSelect_empty
  | destruct (decide (List.filter isImage files = [])) as [Hnone|Hsome];
    [ rewrite (handleFileSelect_rejected files slotId w Hfiles Hnone)
    | destruct (decide (startOf slotId (images w) = -1)) as [Hfull|Hstart];
      [ rewrite (handleFileSelect_full files slotId w Hsome Hfull)
      | rewrite (handleFileSelect_placed files slotId w Hsome Hstart);
        cbv zeta ] ] ].

(** Every way out of [handleFileSelect] leaves at most one new toast, and
    which one tells the ways apart. *)
Lemma handleFileSelect_toasts files slotId w :
  let w' := exec (handleFileSelect files slotId) w in
  let imageFiles := List.filter isImage files in
  let startIndex := startOf slotId (images w) in
  toasts w' =
    if decide (files = []) then toasts w
    else if decide (imageFiles = []) then toasts w ++ [fileFormatError]
    else if decide (startIndex = -1) then toasts w ++ [gridFull]
    else toasts w ++
         [uploadSuccess (Z.min (Z.of_nat (length imageFiles)) (9 - startIndex))].
Proof.
  cbv zeta. unfold exec.
  handleFileSelect_cases files slotId w; [done..|]. simpl.
  by destruct (placeFiles_frame (startOf slotId (images w))
                 (List.filter isImage files) 0 (images w) w) as (_ & -> & _).
Qed.

Lemma startOf_valid slotId slots :
  (∀ t, slotId = Some t → validSlot t) →
  length slots = 9%nat →
  startOf slotId slots ≠ -1 → 0 ≤ startOf slotId slots < 9.
Proof.
  intros Hvalid Hlen Hne. destruct slotId as [t|]; simpl in *.
  - by apply Hvalid.
  - destruct (findIndex_found _ _ Hne) as (n & x & -> & Hx%lookup_lt_Some & _).
    lia.
Qed.

Lemma handleFileSelect_wf files slotId w :
  (∀ t, slotId = Some t → validSlot t) →
  wf w → wf (exec (handleFileSelect files slotId) w).
Proof.
  intros Hvalid Hwf. unfold exec.
  handleFileSelect_cases files slotId w;
    [done | by apply (Inv_registry _ w) | by apply (Inv_registry _ w) |].
  pose proof (startOf_valid slotId (images w) Hvalid (inv_length _ _ Hwf) Hstart).
  pose proof (placeFiles_Inv (startOf slotId (images w))
                (List.filter isImage files) 0 (images w) w) as HI.
  cbv zeta in HI. unfold wf. simpl.
  eapply Inv_registry; [..|apply HI; [lia | done]]; done.
Qed.

(** ** Previews held by the slots *)

Lemma elem_of_previews slots u :
  u ∈ previews slots ↔ ∃ (i : nat) s, slots !! i = Some s ∧ preview s = Some u.
Proof.
  unfold previews. rewrite list_elem_of_omap. split.
  - intros (s & [i Hi]%list_elem_of_lookup & Hp). eauto.
  - intros (i & s & Hi & Hp). exists s. split; [|done].
    apply list_elem_of_lookup. eauto.
Qed.

Lemma previews_NoDup slots :
  (∀ (i j : nat) s s' u, slots !! i = Some s → slots !! j = Some s' →
     preview s = Some u → preview s' = Some u → i = j) →
  NoDup (previews slots).
Proof.
  induction slots as [|x rest IH]; intros Hown; [constructor|].
  assert (NoDup (previews rest)) as Hrest.
  { apply IH. intros i j s s' u Hi Hj Hp Hp'.
    specialize (Hown (S i) (S j) s s' u Hi Hj Hp Hp'). lia. }
  unfold previews in *. simpl. destruct (preview x) as [u|] eqn:Hx; [|done].
  constructor; [|done].
  intros (j & s & Hj & Hp)%elem_of_previews.
  specialize (Hown 0%nat (S j) x s u eq_refl Hj Hx Hp). lia.
Qed.

Lemma Inv_previews_NoDup slots w : Inv slots w → NoDup (previews slots).
Proof. intros HI. apply previews_NoDup, (inv_owner _ _ HI). Qed.

Lemma previews_nil_iff slots :
  previews slots = [] ↔ Forall (λ s, preview s = None) slots.
Proof.
  unfold previews. induction slots as [|x rest IH]; simpl.
  - split; [constructor | done].
  - destruct (preview x) eqn:Hx.
    + split; [done|]. intros HF. inversion HF; congruence.
    + rewrite IH. split; [by constructor | by inversion 1].
Qed.

(** In a well-formed store, holding no preview and holding no file agree. *)
Lemma Inv_empty_iff slots w :
  Inv slots w →
  Forall emptySlotP slots ↔ previews slots = [].
Proof.
  intros HI. rewrite previews_nil_iff, !Forall_lookup.
  split; intros H i s Hs; apply (inv_filled _ _ HI i s Hs); by eapply H.
Qed.

(** ** [removeImage] *)

Lemma removeImage_outside slotId w :
  array_get slotId (images w) = None → removeImage slotId w = (None, w).
Proof. intros Hnone. unfold removeImage, mbind, M_bind, getImages. by rewrite Hnone. Qed.

Lemma removeImage_filled slotId w s p :
  array_get slotId (images w) = Some s → preview s = Some p →
  removeImage slotId w =
  (Some tt,
   {| images := array_set slotId (emptySlot slotId) (images w);
      urls := urls w ∖ {[ p ]}; nextUrl := nextUrl w;
      revoked := revoked w ++ [p]; toasts := toasts w; canvas := canvas w |}).
Proof.
  intros Hs Hp. unfold removeImage, mbind, M_bind, getImages. by rewrite Hs, Hp.
Qed.

Lemma removeImage_vacant slotId w s :
  array_get slotId (images w) = Some s → preview s = None →
  removeImage slotId w =
  (Some tt,
   {| images := array_set slotId (emptySlot slotId) (images w);
      urls := urls w; nextUrl := nextUrl w;
      revoked := revoked w; toasts := toasts w; canvas := canvas w |}).
Proof.
  intros Hs Hp. unfold removeImage, mbind, M_bind, getImages. by rewrite Hs, Hp.
Qed.

(** Emptying a slot that is already empty rewrites it with itself. *)
Lemma array_set_emptySlot_id slots w slotId s :
  Inv slots w → array_get slotId slots = Some s → preview s = None →
  array_set slotId (emptySlot slotId) slots = slots.
Proof.
  intros HI Hs Hp. unfold array_get, array_set in *.
  destruct (Z.leb_spec 0 slotId); [|done].
  apply list_insert_id. rewrite Hs. f_equal.
  pose proof (inv_id _ _ HI _ _ Hs) as Hid.
  pose proof (proj2 (inv_filled _ _ HI _ _ Hs) Hp) as Hfile.
  destruct s as [i f p]; simpl in *. subst. unfold emptySlot. f_equal. lia.
Qed.

Lemma World_eta w :
  {| images := images w; urls := urls w; nextUrl := nextUrl w;
     revoked := revoked w; toasts := toasts w; canvas := canvas w |} = w.
Proof. by destruct w. Qed.

Lemma Inv_clear slots w (t : Z) :
  Inv slots w → Inv (array_set t (emptySlot t) slots) w.
Proof.
  intros [Hlen Hid Hfill Hlive Hown Hiss Hrev Honce].
  unfold array_set. destruct (Z.leb_spec 0 t); [|by split].
  assert (∀ (i : nat) s, <[Z.to_nat t:=emptySlot t]> slots !! i = Some s →
            s = emptySlot t ∧ i = Z.to_nat t ∨ slots !! i = Some s) as Hcases.
  { intros i s Hs. destruct (decide (i = Z.to_nat t)) as [->|Hne].
    - destruct (decide (Z.to_nat t < length slots)%nat).
      + rewrite list_lookup_insert_eq in Hs by done. left. by injection Hs as <-.
      + rewrite list_insert_ge in Hs by lia. by right.
    - rewrite list_lookup_insert_ne in Hs by done. by right. }
  split.
  - by rewrite length_insert.
  - intros i s [[-> ->]|Hs]%Hcases; [simpl; lia | eauto].
  - intros i s [[-> ->]|Hs]%Hcases; [done | eauto].
  - intros i s u [[-> ->]|Hs]%Hcases Hp; [done | eauto].
  - intros i j s s' u [[-> ->]|Hs]%Hcases [[-> ->]|Hs']%Hcases Hp Hp'; try done.
    eauto.
  - done.
  - done.
  - done.
Qed.

Lemma removeImage_wf slotId w : wf w → wf (exec (removeImage slotId) w).
Proof.
  intros Hwf. unfold exec.
  destruct (array_get slotId (images w)) as [s|] eqn:Hs.
  2:{ by rewrite removeImage_outside. }
  destruct (preview s) as [p|] eqn:Hp.
  2:{ rewrite (removeImage_vacant _ _ _ Hs Hp). unfold wf. simpl.
      apply (Inv_registry _ w); [done..|]. by apply Inv_clear. }
  rewrite (removeImage_filled _ _ _ _ Hs Hp). unfold wf. simpl.
  pose proof (array_get_Some _ _ _ Hs) as Hrange.
  apply array_get_lookup in Hs.
  pose proof (Inv_clear _ _ slotId Hwf) as [Hlen Hid Hfill Hlive Hown Hiss Hrev Honce].
  assert (p ∈ urls w) as Hplive by (by eapply (inv_live _ _ Hwf)).
  split; simpl; try done.
  - intros i s' u Hs' Hu. apply elem_of_difference. split; [eauto|].
    intros ->%elem_of_singleton.
    unfold array_set in Hs'. destruct (Z.leb_spec 0 slotId); [|lia].
    destruct (decide (i = Z.to_nat slotId)) as [->|Hne].
    + rewrite list_lookup_insert_eq in Hs' by lia. by injection Hs' as <-.
    + rewrite list_lookup_insert_ne in Hs' by done.
      by specialize (inv_owner _ _ Hwf _ _ _ _ _ Hs' Hs Hu Hp).
  - intros u [Hu _]%elem_of_difference. eauto.
  - intros u [Hu| ->%list_elem_of_singleton]%elem_of_app.
    + destruct (Hrev _ Hu). split; [done | set_solver].
    + split; [eauto | set_solver].
  - apply NoDup_app. repeat split; [done | | apply NoDup_singleton].
    intros u Hu ->%list_elem_of_singleton. by destruct (Hrev _ Hu).
Qed.

(** ** [resetGrid] *)

(** The [forEach] of [resetGrid] revokes the previews of the slots, in index
    order, and does nothing else. *)
Lemma forEach_revoke slots w :
  let r := (forEach (λ img, match preview img with
                            | Some p => revokeObjectURL p
                            | None => mret tt
                            end) slots w).2 in
  images r = images w ∧ urls r = urls w ∖ list_to_set (previews slots) ∧
  nextUrl r = nextUrl w ∧ revoked r = revoked w ++ previews slots ∧
  toasts r = toasts w ∧ canvas r = canvas w.
Proof.
  revert w. induction slots as [|x rest IH]; intros w; cbv zeta.
  - simpl. rewrite app_nil_r. repeat split. set_solver.
  - simpl. unfold mbind, M_bind, previews. simpl.
    destruct (preview x) as [p|]; simpl.
    + pose proof (IH (revokeObjectURL p w).2) as H. simpl in H.
      destruct H as (Hi & Hu & Hn & Hr & Ht & Hc).
      rewrite Hi, Hu, Hn, Hr, Ht, Hc. rewrite <- app_assoc.
      repeat split. set_solver.
    + apply IH.
Qed.

Lemma resetGrid_spec w :
  let w' := exec resetGrid w in
  images w' = emptyGrid ∧
  urls w' = urls w ∖ list_to_set (previews (images w)) ∧
  nextUrl w' = nextUrl w ∧
  revoked w' = revoked w ++ previews (images w) ∧
  toasts w' = toasts w ++ [gridReset] ∧
  canvas w' = canvas w.
Proof.
  cbv zeta. unfold exec, resetGrid, mbind, M_bind, getImages.
  pose proof (forEach_revoke (images w) w) as H. cbv zeta in H.
  destruct (forEach _ (images w) w) as [[] r]. simpl in *.
  destruct H as (Hi & Hu & Hn & Hr & Ht & Hc). by rewrite Hu, Hn, Hr, Ht, Hc.
Qed.

Lemma resetGrid_wf w : wf w → wf (exec resetGrid w).
Proof.
  intros Hwf. destruct (resetGrid_spec w) as (Hi & Hu & Hn & Hr & Ht & Hc).
  unfold wf. rewrite Hi.
  assert (∀ u, u ∈ previews (images w) → u ∈ urls w) as Hlive.
  { intros u (i & s & Hs & Hp)%elem_of_previews. by eapply (inv_live _ _ Hwf). }
  apply Inv_emptyGrid; rewrite ?Hu, ?Hn, ?Hr.
  - intros u [Hin _]%elem_of_difference. by apply (inv_issued _ _ Hwf).
  - intros u [Hin|Hin]%elem_of_app.
    + destruct (inv_revoked _ _ Hwf _ Hin). split; [done | set_solver].
    + split; [by apply (inv_issued _ _ Hwf), Hlive | set_solver].
  - apply NoDup_app. repeat split.
    + apply (inv_once _ _ Hwf).
    + intros u Hin Hin'. destruct (inv_revoked _ _ Hwf _ Hin) as [_ Hnot].
      by apply Hnot, Hlive.
    + by eapply Inv_previews_NoDup.
Qed.

(** ** [downloadGrid] *)

Lemma emitAll_nil w : emitAll [] w = (tt, w).
Proof. unfold emitAll. by rewrite app_nil_r, World_eta. Qed.

Lemma emitAll_app ops ops' w :
  emitAll ops' (emitAll ops w).2 = emitAll (ops ++ ops') w.
Proof. unfold emitAll. simpl. by rewrite app_assoc. Qed.

Lemma onload_cellOps env index src w :
  onload env index src w = emitAll (cellOps env index src) w.
Proof.
  unfold onload, cellOps. destruct (imageSize env src) as [width height].
  unfold emitAll, mbind, M_bind, emit. simpl.
  by rewrite <- !app_assoc.
Qed.

Lemma forEachIdx_emitAll (f : Z → ObjectURL → M unit) g slots index w :
  (∀ i src w, f i src w = emitAll (g i src) w) →
  forEachIdx (λ img index, match preview img with
                           | Some src => f index src
                           | None => mret tt
                           end) slots index w =
  emitAll (opsIdx g slots index) w.
Proof.
  intros Hf. revert index w.
  induction slots as [|img rest IH]; intros index w; simpl.
  - by rewrite emitAll_nil.
  - unfold mbind, M_bind. destruct (preview img) as [src|].
    + rewrite Hf. simpl. rewrite IH. apply emitAll_app.
    + simpl. apply IH.
Qed.

Lemma opsIdx_lookup g slots index (i : nat) s src :
  slots !! i = Some s → preview s = Some src →
  ∃ before after,
    opsIdx g slots index = before ++ g (index + Z.of_nat i) src ++ after.
Proof.
  revert index i. induction slots as [|img rest IH]; intros index i Hs Hp; [done|].
  destruct i as [|i]; simpl in *.
  - injection Hs as ->. rewrite Hp. exists [], (opsIdx g rest (index + 1)).
    by rewrite Z.add_0_r.
  - destruct (IH (index + 1) i Hs Hp) as (before & after & ->).
    exists (match preview img with Some src => g index src | None => [] end ++ before),
           after.
    rewrite <- app_assoc. do 4 f_equal. lia.
Qed.

Lemma filter_preview_nil slots :
  length (List.filter (λ img, bool_decide (is_Some (preview img))) slots) = 0%nat
  ↔ previews slots = [].
Proof.
  rewrite length_zero_iff_nil. unfold previews.
  induction slots as [|x rest IH]; simpl; [done|].
  destruct (preview x) as [p|] eqn:Hp.
  - rewrite bool_decide_true by eauto. done.
  - rewrite bool_decide_false by (by intros [? ?]). done.
Qed.

Lemma bind_unit {A B} (m : M A) (k : M B) w : (m ;; k) w = k (m w).2.
Proof. unfold mbind, M_bind. by destruct (m w) as [a w']. Qed.

Lemma downloadGrid_nothing env w :
  previews (images w) = [] → downloadGrid env w = toast noImages w.
Proof.
  intros Hnone%filter_preview_nil.
  unfold downloadGrid, mbind, M_bind, getImages.
  by destruct (decide _).
Qed.

Lemma bind_getImages {B} (k : list ImageSlot → M B) w :
  (getImages ≫= k) w = k (images w) w.
Proof. done. Qed.

Lemma bind_createObjectURL {B} (k : ObjectURL → M B) w :
  (createObjectURL ≫= k) w = k (nextUrl w) (createObjectURL w).2.
Proof. done. Qed.

Lemma emit_emitAll op w : emit op w = emitAll [op] w.
Proof. done. Qed.

Lemma downloadGrid_eq env w :
  previews (images w) ≠ [] →
  downloadGrid env w =
  if ctxAvailable env then
    let w1 := (emitAll (paintOps env (images w)) w).2 in
    if blobAvailable env then
      toast downloadSuccess
        (revokeObjectURL (nextUrl w)
           (emit (Download (nextUrl w)) (createObjectURL w1).2).2).2
    else (tt, w1)
  else emitAll [CreateCanvas; GetContext] w.
Proof.
  intros Hsome. unfold downloadGrid. rewrite bind_getImages.
  destruct (decide _) as [Hnone%filter_preview_nil|_]; [done|].
  rewrite !bind_unit, !emit_emitAll, emitAll_app.
  destruct (ctxAvailable env); cbn [negb]; [|done].
  rewrite !bind_unit.
  rewrite (forEachIdx_emitAll (λ index src, emit (ImageSrc index src))
             (λ index src, [ImageSrc index src])) by done.
  rewrite (forEachIdx_emitAll (onload env) (cellOps env))
    by (intros; apply onload_cellOps).
  rewrite !emit_emitAll, !emitAll_app. cbv zeta.
  remember (paintOps env (images w)) as painted eqn:Hpainted.
  match goal with
  | |- context [emitAll (?a ++ ?b) w] =>
      replace (a ++ b) with painted
        by (subst painted; unfold paintOps, canvasSide;
            rewrite <- ?app_assoc; reflexivity)
  end.
  destruct (blobAvailable env); [|done].
  by rewrite bind_createObjectURL, !bind_unit.
Qed.

Lemma downloadGrid_spec env w :
  previews (images w) ≠ [] →
  let w' := exec (downloadGrid env) w in
  images w' = images w ∧
  canvas w' = canvas w ++
    (if ctxAvailable env then exportOps env w else [CreateCanvas; GetContext]) ∧
  toasts w' = toasts w ++
    (if ctxAvailable env && blobAvailable env then [downloadSuccess] else []) ∧
  (if ctxAvailable env && blobAvailable env
   then urls w' = ({[ nextUrl w ]} ∪ urls w) ∖ {[ nextUrl w ]} ∧
        nextUrl w' = S (nextUrl w) ∧ revoked w' = revoked w ++ [nextUrl w]
   else urls w' = urls w ∧ nextUrl w' = nextUrl w ∧ revoked w' = revoked w).
Proof.
  intros Hsome. cbv zeta. unfold exec. rewrite downloadGrid_eq by done.
  unfold exportOps, paintOps.
  destruct (ctxAvailable env), (blobAvailable env); simpl;
    rewrite ?app_nil_r, <- ?app_assoc; simpl; rewrite <- ?app_assoc; done.
Qed.

Lemma downloadGrid_wf env w : wf w → wf (exec (downloadGrid env) w).
Proof.
  intros Hwf.
  destruct (decide (previews (images w) = [])) as [Hnone|Hsome].
  { unfold exec. rewrite downloadGrid_nothing by done. by apply (Inv_registry _ w). }
  destruct (downloadGrid_spec env w Hsome) as (Hi & _ & _ & Hreg).
  unfold wf. rewrite Hi.
  destruct (ctxAvailable env && blobAvailable env).
  2:{ destruct Hreg as (Hu & Hn & Hr). by apply (Inv_registry _ w). }
  destruct Hreg as (Hu & Hn & Hr).
  destruct Hwf as [Hlen Hid Hfill Hlive Hown Hiss Hrev Honce].
  assert (nextUrl w ∉ urls w) as Hfresh by (intros ?%Hiss; lia).
  split; rewrite ?Hu, ?Hn, ?Hr; try done.
  - intros i s u Hs Hp. specialize (Hlive _ _ _ Hs Hp). set_solver.
  - intros u Hin. assert (u ∈ urls w) as ?%Hiss by set_solver. lia.
  - intros u [Hin| ->%list_elem_of_singleton]%elem_of_app.
    + destruct (Hrev _ Hin). split; [lia | set_solver].
    + split; [lia | set_solver].
  - apply NoDup_app. repeat split; [done | | apply NoDup_singleton].
    intros u Hin ->%list_elem_of_singleton. destruct (Hrev _ Hin). lia.
Qed.

(** ** Every reachable world is well formed *)

Lemma perform_wf a w : validAction a → wf w → wf (exec (perform a) w).
Proof.
  destruct a as [files slotId|slotId| |env]; simpl; intros Hvalid Hwf.
  - apply handleFileSelect_wf; [|done].
    intros t ->. exact Hvalid.
  - unfold exec. rewrite bind_unit. by apply removeImage_wf.
  - by apply resetGrid_wf.
  - by apply downloadGrid_wf.
Qed.

Lemma reachable_wf w : reachable w → wf w.
Proof.
  induction 1 as [|w a _ IH Hvalid]; [apply wf_initial | by apply perform_wf].
Qed.

Lemma forEach_perform_reachable session w :
  Forall validAction session → reachable w →
  reachable (exec (forEach perform session) w).
Proof.
  intros Hvalid. revert w.
  induction Hvalid as [|a rest Ha _ IH]; intros w Hw; [done|].
  unfold exec. simpl. rewrite bind_unit. apply IH. by constructor.
Qed.

Lemma run_reachable session : Forall validAction session → reachable (run session).
Proof. intros Hvalid. apply forEach_perform_reachable; [done | constructor]. Qed.

(** ** Media types *)

Lemma prefix_append (p s : string) :
  String.prefix p s = true ↔ ∃ rest, s = String.append p rest.
Proof.
  revert s. induction p as [|a p IH]; intros s.
  - split; [by exists s | by destruct s].
  - destruct s as [|b s]; [split; [done | by intros [? ?]]|].
    change (String.append (String a p)) with (λ rest, String a (String.append p rest)).
    cbn. destruct (Ascii.ascii_dec a b) as [->|Hne].
    + rewrite IH. split; intros [rest Hrest]; exists rest; congruence.
    + split; [done | intros [rest Hrest]; congruence].
Qed.

Lemma isImage_spec f : isImage f = true ↔ imageTyped f.
Proof. apply prefix_append. Qed.

Lemma filter_isImage_nil files :
  List.filter isImage files = [] ↔ Forall (λ f, ¬ imageTyped f) files.
Proof.
  induction files as [|f rest IH]; simpl.
  - split; [constructor | done].
  - destruct (isImage f) eqn:Hf.
    + split; [done|]. intros HF. inversion HF as [|? ? Hno _]; subst.
      by apply isImage_spec in Hf.
    + rewrite IH. split; [|by inversion 1].
      intros HF. constructor; [|done].
      intros Hty%isImage_spec. congruence.
Qed.

Lemma filter_isImage_all files :
  Forall imageTyped files → List.filter isImage files = files.
Proof.
  induction 1 as [|f rest Hf%isImage_spec _ IH]; simpl; [done|].
  by rewrite Hf, IH.
Qed.

Lemma app_singleton_inv {A} (l : list A) (x y : A) :
  l ++ [x] = l ++ [y] → x = y.
Proof. intros H%app_inv_head. by injection H. Qed.

Lemma app_singleton_ne {A} (l : list A) (x : A) : l ≠ l ++ [x].
Proof.
  intros H%(f_equal length). rewrite length_app in H. simpl in H. lia.
Qed.

(** ** Sample files and stores *)

Lemma png_imageTyped : imageTyped png.
Proof. by exists "png". Qed.

Lemma gappedStore_reachable : reachable gappedStore.
Proof.
  apply run_reachable. repeat constructor. unfold validSlot. lia.
Qed.

Lemma replacedStore_reachable : reachable replacedStore.
Proof.
  apply run_reachable. repeat constructor. unfold validSlot. lia.
Qed.

(** ** Where the files land *)

(** What a successful [handleFileSelect] leaves, from the start position
    [startOf slotId (images w)] on. *)
Lemma handleFileSelect_placement files slotId w :
  length (images w) = 9%nat →
  List.filter isImage files ≠ [] →
  0 ≤ startOf slotId (images w) < 9 →
  let imageFiles := List.filter isImage files in
  let start := startOf slotId (images w) in
  let w' := exec (handleFileSelect files slotId) w in
  length (images w') = 9%nat ∧
  (∀ (k : nat) f, imageFiles !! k = Some f → start + Z.of_nat k < 9 →
     array_get (start + Z.of_nat k) (images w') =
     Some {| id := start + Z.of_nat k; file := Some f;
             preview := Some (nextUrl w + k)%nat |}) ∧
  (∀ j, j < start ∨ start + Z.of_nat (length imageFiles) ≤ j →
     array_get j (images w') = array_get j (images w)) ∧
  nextUrl w' = (nextUrl w + placedCount imageFiles start)%nat ∧
  urls w' = list_to_set (seq (nextUrl w) (placedCount imageFiles start)) ∪ urls w ∧
  revoked w' = revoked w ∧
  toasts w' = toasts w ++
    [uploadSuccess (Z.min (Z.of_nat (length imageFiles)) (9 - start))].
Proof.
  intros Hlen Hsome Hstart. cbv zeta. unfold exec.
  rewrite handleFileSelect_placed by (done || lia). cbv zeta. simpl.
  set (start := startOf slotId (images w)) in *.
  set (imageFiles := List.filter isImage files) in *.
  destruct (placeFiles_frame start imageFiles 0 (images w) w) as (_ & Ht & Hr & _).
  destruct (placeFiles_registry start imageFiles 0 (images w) w) as (Hn & Hu).
  rewrite Z.add_0_r in Hn, Hu. rewrite Ht, Hr, Hn, Hu.
  repeat split.
  - by rewrite placeFiles_length.
  - intros k f Hk Hlt.
    pose proof (placeFiles_placed start imageFiles 0 (images w) w k f Hlen) as H.
    rewrite Z.add_0_r in H. apply H; (done || lia).
  - intros j Hj. apply placeFiles_other. lia.
Qed.

(** ** The placement of the specification *)

Lemma fillFirstEmpty_nil slots : fillFirstEmpty [] slots = slots.
Proof.
  induction slots as [|[held|] rest IH]; simpl; by rewrite ?IH.
Qed.

Lemma fillFirstEmpty_run files slots (s : nat) :
  (∀ (i : nat) x, (i < s)%nat → slots !! i = Some x → x ≠ None) →
  (∀ (j : nat) x, (s ≤ j < s + length files)%nat → slots !! j = Some x → x = None) →
  ∀ i : nat,
    fillFirstEmpty files slots !! i =
    if decide (s ≤ i < s + length files ∧ i < length slots)%nat
    then Some (files !! (i - s)%nat) else slots !! i.
Proof.
  revert files s. induction slots as [|x rest IH]; intros files s Hbefore Hrun i.
  { destruct (decide _) as [Hd|Hd]; [simpl in Hd; lia | done]. }
  destruct files as [|f files'].
  { rewrite fillFirstEmpty_nil.
    destruct (decide _) as [Hd|Hd]; [simpl in Hd; lia | done]. }
  destruct x as [held|].
  - destruct s as [|s].
    { specialize (Hrun 0%nat (Some held)). simpl in Hrun.
      by specialize (Hrun ltac:(lia) eq_refl). }
    destruct i as [|i].
    { destruct (decide _) as [Hd|Hd]; [lia | done]. }
    change (fillFirstEmpty (f :: files') (Some held :: rest) !! S i)
      with (fillFirstEmpty (f :: files') rest !! i).
    rewrite (IH (f :: files') s).
    + change ((Some held :: rest) !! S i) with (rest !! i).
      replace (S i - S s)%nat with (i - s)%nat by lia.
      destruct (decide _) as [Hd|Hd], (decide _) as [Hd'|Hd'];
        simpl in *; (done || lia).
    + intros k y Hk Hy. apply (Hbefore (S k) y); [lia | done].
    + intros k y Hk Hy. apply (Hrun (S k) y); [simpl in *; lia | done].
  - destruct s as [|s].
    2:{ by specialize (Hbefore 0%nat None ltac:(lia) eq_refl). }
    destruct i as [|i].
    { destruct (decide _) as [Hd|Hd]; [done | simpl in Hd; lia]. }
    change (fillFirstEmpty (f :: files') (None :: rest) !! S i)
      with (fillFirstEmpty files' rest !! i).
    rewrite (IH files' 0%nat).
    + change ((None :: rest) !! S i) with (rest !! i).
      rewrite !Nat.sub_0_r.
      change ((f :: files') !! S i) with (files' !! i).
      destruct (decide _) as [Hd|Hd], (decide _) as [Hd'|Hd'];
        simpl in *; (done || lia).
    + intros k y Hk. lia.
    + intros k y Hk Hy. apply (Hrun (S k) y); [simpl; lia | done].
Qed.

(** ** Removing twice *)

(** Removing from a slot that holds nothing changes nothing at all. *)
Lemma removeImage_on_empty slotId w s :
  wf w → array_get slotId (images w) = Some s → preview s = None →
  removeImage slotId w = (Some tt, w).
Proof.
  intros Hwf Hs Hp. rewrite (removeImage_vacant _ _ _ Hs Hp).
  by rewrite (array_set_emptySlot_id _ _ _ _ Hwf Hs Hp), World_eta.
Qed.

(** ** Cover fit *)

Lemma SFleb_not_ltb a b : SFleb a b = true → SFltb b a = false.
Proof.
  unfold SFleb, SFltb.
  destruct a as [sa|sa| |sa ma ea], b as [sb|sb| |sb mb eb]; simpl;
    try done; try (by destruct sa); try (by destruct sb);
    try (by destruct sa, sb).
  pose proof (Pos.compare_cont_antisym ma mb Eq) as Hm. simpl in Hm.
  rewrite (Z.compare_antisym ea eb).
  destruct sa, sb; try done;
    (destruct (ea ?= eb) eqn:He; simpl; try done;
     rewrite <- Hm; by destruct (Pos.compare_cont Eq ma mb)).
Qed.

(** On doubles, [x <= y] rules out [y < x] (both are false on a NaN). *)
Lemma leb_not_ltb (x y : float) :
  (x <=? y)%float = true → (y <? x)%float = false.
Proof. rewrite leb_spec, ltb_spec. apply SFleb_not_ltb. Qed.

Lemma coverFit_wide width height :
  (1 <? width / height)%float = true →
  coverFit width height =
  {| drawWidth := (300 * (width / height))%float;
     drawHeight := 300%float;
     offsetX := ((- (300 * (width / height) - 300)) / 2)%float;
     offsetY := 0%float |}.
Proof. intros Hwide. unfold coverFit. by rewrite Hwide. Qed.

Lemma coverFit_tall width height :
  (1 <? width / height)%float = false →
  coverFit width height =
  {| drawWidth := 300%float;
     drawHeight := (300 / (width / height))%float;
     offsetX := 0%float;
     offsetY := ((- (300 / (width / height) - 300)) / 2)%float |}.
Proof. intros Htall. unfold coverFit. by rewrite Htall. Qed.

(** ** Previews across replacement and reset *)

(** [handleFileSelect] has no path that revokes an object URL: whatever it
    is given, the revocations are as before and every URL that was live
    still is. *)
Lemma handleFileSelect_never_revokes files slotId w :
  let w' := exec (handleFileSelect files slotId) w in
  revoked w' = revoked w ∧ urls w ⊆ urls w'.
Proof.
  cbv zeta. unfold exec.
  handleFileSelect_cases files slotId w; [done..|]. simpl.
  destruct (placeFiles_frame (startOf slotId (images w))
              (List.filter isImage files) 0 (images w) w) as (_ & _ & -> & _).
  destruct (placeFiles_registry (startOf slotId (images w))
              (List.filter isImage files) 0 (images w) w) as (_ & ->).
  split; [done | set_solver].
Qed.

(** A file dropped on a filled slot of the grid leaves the slot's former
    preview live although no slot holds it any more. *)
Lemma replace_leaves_preview_live files (t : Z) w s p :
  wf w → validSlot t → List.filter isImage files ≠ [] →
  array_get t (images w) = Some s → preview s = Some p →
  let w' := exec (handleFileSelect files (Some t)) w in
  p ∈ urls w' ∧ (p ∉ previews (images w')) ∧ revoked w' = revoked w.
Proof.
  intros Hwf Ht Hsome Hs Hp. cbv zeta.
  assert (0 ≤ t < 9) as Hrange by exact Ht.
  destruct (handleFileSelect_never_revokes files (Some t) w) as (Hr & Hu).
  pose proof (handleFileSelect_wf files (Some t) w) as Hwf'.
  specialize (Hwf' ltac:(by intros ? [= <-]) Hwf).
  destruct (handleFileSelect_placement files (Some t) w (inv_length _ _ Hwf) Hsome Ht)
    as (_ & Hplaced & _).
  destruct (List.filter isImage files) as [|f rest] eqn:Hfs; [done|].
  specialize (Hplaced 0%nat f eq_refl). simpl in Hplaced.
  rewrite Z.add_0_r, Nat.add_0_r in Hplaced.
  specialize (Hplaced ltac:(lia)).
  apply array_get_lookup in Hs, Hplaced.
  assert (p ∈ urls w) as Hlive by (by eapply (inv_live _ _ Hwf)).
  split; [by apply Hu|]. split; [|done].
  intros (j & s' & Hs' & Hp')%elem_of_previews.
  assert (j = Z.to_nat t) as ->.
  { destruct (decide (j = Z.to_nat t)) as [|Hne]; [done|].
    destruct (handleFileSelect_placement files (Some t) w (inv_length _ _ Hwf))
      as (_ & _ & Hother & _); [by rewrite Hfs | done |].
    rewrite Hfs in Hother. simpl startOf in Hother.
    destruct (decide (Z.of_nat j < t ∨
                      t + Z.of_nat (length (f :: rest)) ≤ Z.of_nat j)) as [Hout|Hin].
    - specialize (Hother _ Hout). rewrite !array_get_nat in Hother.
      rewrite Hother in Hs'.
      by specialize (inv_owner _ _ Hwf _ _ _ _ _ Hs' Hs Hp' Hp).
    - destruct (handleFileSelect_placement files (Some t) w (inv_length _ _ Hwf))
        as (Hlen' & Hplaced' & _); [by rewrite Hfs | done |].
      rewrite Hfs in Hplaced'. simpl startOf in Hplaced'.
      pose proof (lookup_lt_Some _ _ _ Hs') as Hj. rewrite Hlen' in Hj.
      destruct ((f :: rest) !! (j - Z.to_nat t)%nat) as [g|] eqn:Hg.
      2:{ apply lookup_ge_None in Hg. lia. }
      specialize (Hplaced' _ _ Hg ltac:(lia)).
      replace (t + Z.of_nat (j - Z.to_nat t)) with (Z.of_nat j) in Hplaced' by lia.
      rewrite array_get_nat, Hs' in Hplaced'. injection Hplaced' as ->.
      simpl in Hp'. injection Hp' as <-.
      specialize (inv_issued _ _ Hwf _ Hlive). lia. }
  rewrite Hs' in Hplaced. injection Hplaced as ->. simpl in Hp'.
  injection Hp' as <-. specialize (inv_issued _ _ Hwf _ Hlive). lia.
Qed.

(** What [resetGrid] does release: the previews the slots hold, each once. *)
Lemma resetGrid_releases_held w :
  reachable w →
  let w' := exec resetGrid w in
  images w' = emptyGrid ∧ length (images w') = 9%nat ∧
  revoked w' = revoked w ++ previews (images w) ∧
  NoDup (previews (images w)) ∧
  (∀ u, u ∈ previews (images w) →
     u ∈ urls w ∧ (u ∉ revoked w) ∧ (u ∉ urls w')) ∧
  NoDup (revoked w') ∧
  toasts w' = toasts w ++ [gridReset].
Proof.
  intros Hwf%reachable_wf. cbv zeta.
  pose proof (resetGrid_wf w Hwf) as Hwf'.
  destruct (resetGrid_spec w) as (Hi & Hu & Hn & Hr & Ht & Hc).
  assert (∀ u, u ∈ previews (images w) → u ∈ urls w) as Hlive.
  { intros u (i & s & Hs & Hp)%elem_of_previews. by eapply (inv_live _ _ Hwf). }
  rewrite Hi, Hu, Hr, Ht.
  split; [done|]. split; [done|]. split; [done|].
  split; [by eapply Inv_previews_NoDup|].
  split.
  { intros u Hin. split; [by apply Hlive|]. split; [|set_solver].
    intros Hrev. destruct (inv_revoked _ _ Hwf _ Hrev) as [_ Hnot].
    by apply Hnot, Hlive. }
  split; [|done].
  rewrite <- Hr. apply (inv_once _ _ Hwf').
Qed.

(** ** A session, end to end *)

(** Three files through the picker fill slots 0, 1 and 2; removing slot 1
    revokes its preview and leaves slots 0 and 2 filled. *)
Example three_in_one_out :
  let w := run [Select [png; jpg; gif] None; Remove 1] in
  file <$> images w =
    [Some png; None; Some gif; None; None; None; None; None; None] ∧
  previews (images w) = [0%nat; 2%nat] ∧ revoked w = [1%nat] ∧
  toasts w = [uploadSuccess 3].
Proof. repeat split; by vm_compute. Qed.

(** An export of that store paints a 920 x 920 canvas white, starts two
    decodes and draws cells 0 and 2 only, each clipped to its cell. *)
Example three_in_one_out_export :
  canvas (run [Select [png; jpg; gif] None; Remove 1; Export viewer]) =
  [CreateCanvas; GetContext; SetWidth 920; SetHeight 920;
   FillStyle "#ffffff"; FillRect 0 0 920 920;
   ImageSrc 0 0%nat; ImageSrc 2 2%nat;
   Save; BeginPath; Rect 0 0 300 300; Clip;
   DrawImage 0%nat (-150) 0 600 300; Restore;
   Save; BeginPath; Rect 620 0 300 300; Clip;
   DrawImage 2%nat 470 0 600 300; Restore;
   ToBlob; Download 3%nat].
Proof. by vm_compute. Qed.

(** Outside the grid [removeImage] throws and changes nothing. *)
Example remove_outside_throws :
  removeImage 9 initial = (None, initial) ∧
  removeImage (-1) initial = (None, initial).
Proof. split; by vm_compute. Qed.

(** * The specified properties *)

(** C1 (fails on the code): after the drop on the filled slot 0 the store
    holds one preview, URL 1, while URLs 0 and 1 are both live and nothing
    was ever revoked: the preview the slot held before is not released. *)
Theorem replace_keeps_old_preview_live :
  images (run [Select [png] None]) !! 0%nat =
    Some {| id := 0; file := Some png; preview := Some 0%nat |} ∧
  images replacedStore !! 0%nat =
    Some {| id := 0; file := Some jpg; preview := Some 1%nat |} ∧
  previews (images replacedStore) = [1%nat] ∧
  urls replacedStore = {[ 0%nat; 1%nat ]} ∧
  revoked replacedStore = [].
Proof. repeat split; by vm_compute. Qed.

(** C2, as stated, fails: on the gapped store two files inserted without a
    target go to slots 0 and 1, replacing the file slot 1 held and leaving
    slot 2 empty, where the first two empty slots are 0 and 2. *)
Lemma insert_auto_fill_counterexample :
  file <$> images (exec (handleFileSelect [gif; png] None) gappedStore)
    = [Some gif; Some png; None; None; None; None; None; None; None] ∧
  fillFirstEmpty [gif; png] (file <$> images gappedStore)
    = [Some gif; Some jpg; Some png; None; None; None; None; None; None] ∧
  file <$> images (exec (handleFileSelect [gif; png] None) gappedStore)
    ≠ fillFirstEmpty [gif; png] (file <$> images gappedStore).
Proof. repeat split. by vm_compute. Qed.

(** C2 (amended): on a store of nine slots with at least one empty, the
    accepted files of an insert without a target go, in order, to the
    consecutive slots [s], [s+1], ... up to index 8, where [s] is the first
    empty slot; every slot below [s] or past the last file keeps its content;
    when [s] plus the number of files exceeds 9 only [9 - s] are placed, and
    the rest are dropped with no error: the only toast is the success one.
    When the slots the files land on were all empty, this is the placement
    the specification words: the first empty slots are filled and every
    filled slot is unchanged. *)
Theorem insert_auto_fill files w :
  length (images w) = 9%nat →
  List.filter isImage files ≠ [] →
  Exists emptySlotP (images w) →
  ∃ (s : nat) slot,
    images w !! s = Some slot ∧ emptySlotP slot ∧
    (∀ (i : nat) x, (i < s)%nat → images w !! i = Some x → ¬ emptySlotP x) ∧
    let imageFiles := List.filter isImage files in
    let w' := exec (handleFileSelect files None) w in
    length (images w') = 9%nat ∧
    (∀ (k : nat) f, imageFiles !! k = Some f → (s + k < 9)%nat →
       images w' !! (s + k)%nat =
       Some {| id := Z.of_nat (s + k); file := Some f;
               preview := Some (nextUrl w + k)%nat |}) ∧
    (∀ j : nat, (j < s ∨ s + length imageFiles ≤ j)%nat →
       images w' !! j = images w !! j) ∧
    nextUrl w' = (nextUrl w + Nat.min (length imageFiles) (9 - s))%nat ∧
    toasts w' = toasts w ++
      [uploadSuccess (Z.min (Z.of_nat (length imageFiles)) (9 - Z.of_nat s))] ∧
    ((∀ (j : nat) x, (s ≤ j < s + length imageFiles)%nat →
        images w !! j = Some x → emptySlotP x) →
     file <$> images w' = fillFirstEmpty imageFiles (file <$> images w)).
Proof.
  intros Hlen Hsome Hempty.
  assert (startOf None (images w) ≠ -1) as Hstart.
  { simpl. rewrite findIndex_none. intros HF.
    apply Exists_exists in Hempty as (x & Hx & He).
    rewrite Forall_forall in HF. specialize (HF x Hx). simpl in HF.
    by rewrite bool_decide_true in HF. }
  destruct (findIndex_found _ _ Hstart) as (s & slot & Hs & Hslot & He & Hbefore).
  simpl in He. apply bool_decide_eq_true in He.
  pose proof (lookup_lt_Some _ _ _ Hslot) as Hlt.
  assert (∀ (i : nat) x, (i < s)%nat → images w !! i = Some x → ¬ emptySlotP x)
    as Hfilled.
  { intros i x Hi Hx Hex. rewrite Forall_lookup in Hbefore.
    assert (take s (images w) !! i = Some x) as Htake
      by (by rewrite lookup_take_lt).
    specialize (Hbefore i x Htake). simpl in Hbefore.
    by rewrite bool_decide_true in Hbefore. }
  exists s, slot. split; [done|]. split; [done|]. split; [done|].
  destruct (handleFileSelect_placement files None w Hlen Hsome)
    as (Hlen' & Hplaced & Hother & Hn & _ & _ & Htoast).
  { change (startOf None (images w)) with
      (findIndex (λ img, bool_decide (file img = None)) (images w)). lia. }
  change (startOf None (images w)) with
    (findIndex (λ img, bool_decide (file img = None)) (images w)) in *.
  rewrite Hs in *. cbv zeta.
  set (w' := exec (handleFileSelect files None) w) in *.
  set (imageFiles := List.filter isImage files) in *.
  assert (∀ (k : nat) f, imageFiles !! k = Some f → (s + k < 9)%nat →
            images w' !! (s + k)%nat =
            Some {| id := Z.of_nat (s + k); file := Some f;
                    preview := Some (nextUrl w + k)%nat |}) as Hplaced'.
  { intros k f Hk Hk9. rewrite <- array_get_nat, !Nat2Z.inj_add.
    apply Hplaced; [done | lia]. }
  assert (∀ j : nat, (j < s ∨ s + length imageFiles ≤ j)%nat →
            images w' !! j = images w !! j) as Hother'.
  { intros j Hj. rewrite <- !array_get_nat. apply Hother. lia. }
  split; [done|]. split; [done|]. split; [done|].
  split; [rewrite Hn; unfold placedCount; lia|].
  split; [done|].
  intros Hrun. apply list_eq. intros i.
  rewrite (fillFirstEmpty_run imageFiles (file <$> images w) s).
  - rewrite length_fmap, Hlen, !list_lookup_fmap.
    destruct (decide _) as [[Hin Hi9]|Hout].
    + destruct (lookup_lt_is_Some_2 imageFiles (i - s)%nat) as [f Hf]; [lia|].
      specialize (Hplaced' _ _ Hf ltac:(lia)).
      replace (s + (i - s))%nat with i in Hplaced' by lia.
      by rewrite Hplaced', Hf.
    + destruct (decide (i < 9)%nat) as [Hi9|Hi9].
      * by rewrite Hother' by lia.
      * by rewrite !lookup_ge_None_2 by lia.
  - intros i' x Hi'. rewrite list_lookup_fmap.
    destruct (images w !! i') as [y|] eqn:Hy; [|done].
    intros [= <-]. by apply (Hfilled i' y).
  - intros j x Hj. rewrite list_lookup_fmap.
    destruct (images w !! j) as [y|] eqn:Hy; [|done].
    intros [= <-]. by apply (Hrun j y).
Qed.

Lemma insert_auto_fill_witness :
  ∃ (s : nat) slot,
    images gappedStore !! s = Some slot ∧ emptySlotP slot ∧
    (∀ (i : nat) x, (i < s)%nat → images gappedStore !! i = Some x →
       ¬ emptySlotP x) ∧
    let imageFiles := List.filter isImage [gif; png] in
    let w' := exec (handleFileSelect [gif; png] None) gappedStore in
    length (images w') = 9%nat ∧
    (∀ (k : nat) f, imageFiles !! k = Some f → (s + k < 9)%nat →
       images w' !! (s + k)%nat =
       Some {| id := Z.of_nat (s + k); file := Some f;
               preview := Some (nextUrl gappedStore + k)%nat |}) ∧
    (∀ j : nat, (j < s ∨ s + length imageFiles ≤ j)%nat →
       images w' !! j = images gappedStore !! j) ∧
    nextUrl w' = (nextUrl gappedStore + Nat.min (length imageFiles) (9 - s))%nat ∧
    toasts w' = toasts gappedStore ++
      [uploadSuccess (Z.min (Z.of_nat (length imageFiles)) (9 - Z.of_nat s))] ∧
    ((∀ (j : nat) x, (s ≤ j < s + length imageFiles)%nat →
        images gappedStore !! j = Some x → emptySlotP x) →
     file <$> images w' = fillFirstEmpty imageFiles (file <$> images gappedStore)).
Proof.
  apply (insert_auto_fill [gif; png] gappedStore).
  - reflexivity.
  - vm_compute. discriminate.
  - apply Exists_cons_hd. reflexivity.
Defined.

(** C3: every filled slot is drawn by one block of six canvas commands: the
    clip is set to the slot's 300 x 300 cell before the image is drawn, and
    the image is drawn with the cover-fit transform. When the source's aspect
    ratio (width / height) exceeds 1 the drawn height is 300, the drawn width
    is 300 x ratio and the horizontal offset is -(width - 300) / 2; when the
    ratio is at most 1 the drawn width is 300, the drawn height is
    300 / ratio and the vertical offset is -(height - 300) / 2; a source of
    ratio 2 is drawn 600 wide and 300 high, shifted left by 150. *)
Theorem cover_fit_transform env w (i : nat) s src width height :
  images w !! i = Some s → preview s = Some src →
  ctxAvailable env = true → imageSize env src = (width, height) →
  let aspectRatio := (width / height)%float in
  let fit := coverFit width height in
  let x := (Z.of_nat i `rem` 3) * 310 in
  let y := (Z.of_nat i `div` 3) * 310 in
  (∃ before after,
     canvas (exec (downloadGrid env) w) =
     before ++
     [Save; BeginPath; Rect x y 300 300; Clip;
      DrawImage src (num x + offsetX fit) (num y + offsetY fit)
        (drawWidth fit) (drawHeight fit);
      Restore] ++ after) ∧
  ((1 <? aspectRatio)%float = true →
     drawHeight fit = 300%float ∧
     drawWidth fit = (300 * aspectRatio)%float ∧
     offsetX fit = ((- (drawWidth fit - 300)) / 2)%float ∧
     offsetY fit = 0%float) ∧
  ((aspectRatio <=? 1)%float = true →
     drawWidth fit = 300%float ∧
     drawHeight fit = (300 / aspectRatio)%float ∧
     offsetY fit = ((- (drawHeight fit - 300)) / 2)%float ∧
     offsetX fit = 0%float) ∧
  (aspectRatio = 2%float →
     drawHeight fit = 300%float ∧ drawWidth fit = 600%float ∧
     offsetX fit = (-150)%float ∧ offsetY fit = 0%float).
Proof.
  intros Hs Hp Hctx Hsize. cbv zeta. split; [|split; [|split]].
  - assert (previews (images w) ≠ []) as Hsome.
    { intros Hnone. assert (src ∈ previews (images w)) as Hin
        by (apply elem_of_previews; eauto).
      rewrite Hnone in Hin. by apply elem_of_nil in Hin. }
    destruct (downloadGrid_spec env w Hsome) as (_ & Hc & _).
    rewrite Hc, Hctx. unfold exportOps, paintOps.
    destruct (opsIdx_lookup (cellOps env) (images w) 0 i s src Hs Hp)
      as (before & after & ->).
    unfold cellOps. rewrite Hsize, Z.add_0_l.
    exists (canvas w ++
            [CreateCanvas; GetContext; SetWidth canvasSide; SetHeight canvasSide;
             FillStyle "#ffffff"; FillRect 0 0 canvasSide canvasSide] ++
            opsIdx (λ index src, [ImageSrc index src]) (images w) 0 ++ before),
           (after ++ [ToBlob] ++
            (if blobAvailable env then [Download (nextUrl w)] else [])).
    rewrite <- !app_assoc. reflexivity.
  - intros Hwide. by rewrite coverFit_wide.
  - intros Htall%leb_not_ltb. by rewrite coverFit_tall.
  - intros Htwo. unfold coverFit. rewrite Htwo. done.
Qed.

Lemma cover_fit_transform_witness :
  let w := run [Select [png] (Some 4)] in
  let fit := coverFit 600 300 in
  (∃ before after,
     canvas (exec (downloadGrid viewer) w) =
     before ++
     [Save; BeginPath; Rect 310 310 300 300; Clip;
      DrawImage 0%nat (num 310 + offsetX fit) (num 310 + offsetY fit)
        (drawWidth fit) (drawHeight fit);
      Restore] ++ after) ∧
  ((1 <? 600 / 300)%float = true →
     drawHeight fit = 300%float ∧
     drawWidth fit = (300 * (600 / 300))%float ∧
     offsetX fit = ((- (drawWidth fit - 300)) / 2)%float ∧
     offsetY fit = 0%float) ∧
  ((600 / 300 <=? 1)%float = true →
     drawWidth fit = 300%float ∧
     drawHeight fit = (300 / (600 / 300))%float ∧
     offsetY fit = ((- (drawHeight fit - 300)) / 2)%float ∧
     offsetX fit = 0%float) ∧
  ((600 / 300)%float = 2%float →
     drawHeight fit = 300%float ∧ drawWidth fit = 600%float ∧
     offsetX fit = (-150)%float ∧ offsetY fit = 0%float).
Proof.
  apply (cover_fit_transform viewer (run [Select [png] (Some 4)]) 4
           {| id := 4; file := Some png; preview := Some 0%nat |} 0%nat
           600%float 300%float); reflexivity.
Defined.

(** C4: [handleFileSelect] raises the format error exactly when the
    collection is non-empty and none of its files has a declared type that
    begins with ["image/"]; the toast is a destructive one, and apart from it
    the world is unmodified. *)
Theorem insert_invalid_input files slotId w :
  let w' := exec (handleFileSelect files slotId) w in
  (toasts w' = toasts w ++ [fileFormatError] ↔
     files ≠ [] ∧ Forall (λ f, ¬ imageTyped f) files) ∧
  (toasts w' = toasts w ++ [fileFormatError] →
     destructive fileFormatError = true ∧
     images w' = images w ∧ urls w' = urls w ∧ nextUrl w' = nextUrl w ∧
     revoked w' = revoked w ∧ canvas w' = canvas w).
Proof.
  cbv zeta.
  assert (toasts (exec (handleFileSelect files slotId) w) =
            toasts w ++ [fileFormatError] ↔
          files ≠ [] ∧ Forall (λ f, ¬ imageTyped f) files) as Hiff.
  { rewrite (handleFileSelect_toasts files slotId w).
    rewrite <- filter_isImage_nil.
    destruct (decide (files = [])) as [->|Hfiles].
    { split; [by intros ?%app_singleton_ne | by intros [? _]]. }
    destruct (decide (List.filter isImage files = [])) as [Hnone|Hsome]; [done|].
    destruct (decide (startOf slotId (images w) = -1));
      (split; [by intros ?%app_singleton_inv | by intros [_ ?]]). }
  split; [done|].
  intros [Hfiles Hnone%filter_isImage_nil]%Hiff.
  unfold exec. by rewrite handleFileSelect_rejected.
Qed.

(** C5: for a non-empty collection of image-typed files and a target that,
    when given, is a slot of the grid, [handleFileSelect] raises the grid-full
    error exactly when no slot is empty and no target was given; when it does,
    the state is unmodified and no object URL is created. *)
Theorem insert_capacity_exceeded files slotId w :
  files ≠ [] → Forall imageTyped files →
  (∀ t, slotId = Some t → validSlot t) →
  let w' := exec (handleFileSelect files slotId) w in
  (toasts w' = toasts w ++ [gridFull] ↔
     slotId = None ∧ Forall (λ s, ¬ emptySlotP s) (images w)) ∧
  (toasts w' = toasts w ++ [gridFull] →
     destructive gridFull = true ∧
     images w' = images w ∧ urls w' = urls w ∧ nextUrl w' = nextUrl w ∧
     revoked w' = revoked w ∧ canvas w' = canvas w).
Proof.
  intros Hfiles Hall Hvalid. cbv zeta.
  assert (List.filter isImage files ≠ []) as Hsome
    by (by rewrite filter_isImage_all).
  assert (startOf slotId (images w) = -1 ↔
          slotId = None ∧ Forall (λ s, ¬ emptySlotP s) (images w)) as Hstart.
  { destruct slotId as [t|]; simpl.
    - split; [|by intros [? _]].
      intros ->. specialize (Hvalid _ eq_refl). unfold validSlot in Hvalid. lia.
    - rewrite findIndex_none. split.
      + intros HF. split; [done|]. eapply Forall_impl; [exact HF|].
        intros s Hs He. unfold emptySlotP in He. simpl in Hs.
        by rewrite bool_decide_true in Hs.
      + intros [_ HF]. eapply Forall_impl; [exact HF|].
        intros s Hs. simpl. by apply bool_decide_false. }
  assert (toasts (exec (handleFileSelect files slotId) w) =
            toasts w ++ [gridFull] ↔ startOf slotId (images w) = -1) as Hiff.
  { rewrite (handleFileSelect_toasts files slotId w).
    destruct (decide (files = [])); [done|].
    destruct (decide (List.filter isImage files = [])); [done|].
    destruct (decide (startOf slotId (images w) = -1)) as [Hfull|Hfree]; [done|].
    split; [by intros ?%app_singleton_inv | done]. }
  split; [by rewrite Hiff|].
  intros Hfull%Hiff. unfold exec. by rewrite handleFileSelect_full.
Qed.

Lemma insert_capacity_exceeded_witness :
  let w' := exec (handleFileSelect [png] None) fullStore in
  (toasts w' = toasts fullStore ++ [gridFull] ↔
     @None Z = None ∧ Forall (λ s, ¬ emptySlotP s) (images fullStore)) ∧
  (toasts w' = toasts fullStore ++ [gridFull] →
     destructive gridFull = true ∧
     images w' = images fullStore ∧ urls w' = urls fullStore ∧
     nextUrl w' = nextUrl fullStore ∧
     revoked w' = revoked fullStore ∧ canvas w' = canvas fullStore).
Proof.
  apply (insert_capacity_exceeded [png] None fullStore).
  - done.
  - repeat constructor. exact png_imageTyped.
  - intros t Ht. discriminate Ht.
Defined.

(** C6: with an explicit target [t] in 0..8, the accepted files go, in order,
    to the slots [t], [t+1], ... as long as the index is below 9; the store
    keeps its nine slots, so nothing is written beyond index 8; the slots
    below [t] (no wrap-around) and those past the last file keep their
    content; a file that would land beyond index 8 is dropped: no object URL
    is created for it and the only toast is the success one. *)
Theorem insert_at_target files (t : Z) w :
  length (images w) = 9%nat → validSlot t →
  List.filter isImage files ≠ [] →
  let imageFiles := List.filter isImage files in
  let w' := exec (handleFileSelect files (Some t)) w in
  length (images w') = 9%nat ∧
  (∀ (k : nat) f, imageFiles !! k = Some f → t + Z.of_nat k < 9 →
     array_get (t + Z.of_nat k) (images w') =
     Some {| id := t + Z.of_nat k; file := Some f;
             preview := Some (nextUrl w + k)%nat |}) ∧
  (∀ j, j < t ∨ t + Z.of_nat (length imageFiles) ≤ j →
     array_get j (images w') = array_get j (images w)) ∧
  (∀ j, 8 < j → array_get j (images w') = None) ∧
  nextUrl w' = (nextUrl w + placedCount imageFiles t)%nat ∧
  toasts w' = toasts w ++
    [uploadSuccess (Z.min (Z.of_nat (length imageFiles)) (9 - t))].
Proof.
  intros Hlen Ht Hsome.
  destruct (handleFileSelect_placement files (Some t) w Hlen Hsome Ht)
    as (Hlen' & Hplaced & Hother & Hn & _ & _ & Htoast).
  cbv zeta. repeat split; try done.
  intros j Hj.
  destruct (array_get j (images (exec (handleFileSelect files (Some t)) w)))
    eqn:Hget; [|done].
  apply array_get_Some in Hget. lia.
Qed.

Lemma insert_at_target_witness :
  let imageFiles := List.filter isImage [png; txt; jpg] in
  let w' := exec (handleFileSelect [png; txt; jpg] (Some 8)) initial in
  length (images w') = 9%nat ∧
  (∀ (k : nat) f, imageFiles !! k = Some f → 8 + Z.of_nat k < 9 →
     array_get (8 + Z.of_nat k) (images w') =
     Some {| id := 8 + Z.of_nat k; file := Some f;
             preview := Some (nextUrl initial + k)%nat |}) ∧
  (∀ j, j < 8 ∨ 8 + Z.of_nat (length imageFiles) ≤ j →
     array_get j (images w') = array_get j (images initial)) ∧
  (∀ j, 8 < j → array_get j (images w') = None) ∧
  nextUrl w' = (nextUrl initial + placedCount imageFiles 8)%nat ∧
  toasts w' = toasts initial ++
    [uploadSuccess (Z.min (Z.of_nat (length imageFiles)) (9 - 8))].
Proof.
  apply (insert_at_target [png; txt; jpg] 8 initial).
  - reflexivity.
  - unfold validSlot. lia.
  - vm_compute. discriminate.
Defined.

(** C7: for a slot of the grid, [removeImage] throws nothing and leaves the
    slot empty and the other slots as they were; on a filled slot it revokes
    exactly one object URL, the slot's own, which was live and had never been
    revoked; on an empty slot it changes nothing and revokes nothing; a second
    call in a row is such a call, so it leaves the world as the first call
    left it; and no object URL is ever revoked twice. *)
Theorem remove_slot_idempotent slotId w :
  reachable w → validSlot slotId →
  let w' := exec (removeImage slotId) w in
  (removeImage slotId w).1 = Some tt ∧
  array_get slotId (images w') = Some (emptySlot slotId) ∧
  (∀ j, j ≠ slotId → array_get j (images w') = array_get j (images w)) ∧
  (∀ s p, array_get slotId (images w) = Some s → preview s = Some p →
     p ∈ urls w ∧ (p ∉ revoked w) ∧
     revoked w' = revoked w ++ [p] ∧ urls w' = urls w ∖ {[ p ]}) ∧
  (∀ s, array_get slotId (images w) = Some s → emptySlotP s → w' = w) ∧
  removeImage slotId w' = (Some tt, w') ∧
  NoDup (revoked w').
Proof.
  intros Hwf%reachable_wf Hvalid. cbv zeta.
  pose proof (removeImage_wf slotId w Hwf) as Hwf'.
  pose proof (inv_length _ _ Hwf) as Hlen.
  assert (0 ≤ slotId < Z.of_nat (length (images w))) as Hrange
    by (unfold validSlot in Hvalid; lia).
  destruct (array_get_is_Some slotId (images w) Hrange) as [s Hs].
  assert (∀ x, array_get slotId (images x) = Some (emptySlot slotId) → wf x →
            removeImage slotId x = (Some tt, x)) as Hagain.
  { intros x Hx Hwfx. by apply (removeImage_on_empty _ _ _ Hwfx Hx). }
  destruct (preview s) as [p|] eqn:Hp.
  - assert (p ∈ urls w) as Hlive
      by (by apply (inv_live _ _ Hwf _ _ _ (array_get_lookup _ _ _ Hs))).
    assert (p ∉ revoked w) as Hnew.
    { intros Hin. by destruct (inv_revoked _ _ Hwf _ Hin). }
    unfold exec in *. rewrite (removeImage_filled _ _ _ _ Hs Hp) in *. simpl.
    assert (array_get slotId (array_set slotId (emptySlot slotId) (images w)) =
            Some (emptySlot slotId)) as Hnow by (by apply array_get_set_eq).
    split; [done|]. split; [done|].
    split; [intros j Hj; by apply array_get_set_ne|].
    split.
    { intros s' p' Hs' Hp'. rewrite Hs in Hs'. injection Hs' as <-.
      rewrite Hp in Hp'. by injection Hp' as <-. }
    split.
    { intros s' Hs' He. rewrite Hs in Hs'. injection Hs' as <-.
      apply array_get_lookup in Hs.
      apply (inv_filled _ _ Hwf _ _ Hs) in He. congruence. }
    split; [by apply Hagain | apply (inv_once _ _ Hwf')].
  - unfold exec in *. rewrite (removeImage_on_empty _ _ _ Hwf Hs Hp) in *. simpl.
    assert (s = emptySlot slotId) as ->.
    { pose proof (array_set_emptySlot_id _ _ _ _ Hwf Hs Hp) as Hid.
      pose proof (array_get_set_eq slotId (emptySlot slotId) (images w) Hrange) as Hget.
      rewrite Hid, Hs in Hget. by injection Hget. }
    split; [done|]. split; [done|]. split; [done|].
    split.
    { intros s' p' Hs' Hp'. rewrite Hs in Hs'. by injection Hs' as <-. }
    split; [done|].
    split; [by apply removeImage_on_empty with (emptySlot slotId)
           | apply (inv_once _ _ Hwf)].
Qed.

Lemma remove_slot_idempotent_witness :
  let w := run [Select [png; jpg] None] in
  let w' := exec (removeImage 1) w in
  (removeImage 1 w).1 = Some tt ∧
  array_get 1 (images w') = Some (emptySlot 1) ∧
  (∀ j, j ≠ 1 → array_get j (images w') = array_get j (images w)) ∧
  (∀ s p, array_get 1 (images w) = Some s → preview s = Some p →
     p ∈ urls w ∧ (p ∉ revoked w) ∧
     revoked w' = revoked w ++ [p] ∧ urls w' = urls w ∖ {[ p ]}) ∧
  (∀ s, array_get 1 (images w) = Some s → emptySlotP s → w' = w) ∧
  removeImage 1 w' = (Some tt, w') ∧
  NoDup (revoked w').
Proof.
  apply (remove_slot_idempotent 1 (run [Select [png; jpg] None])).
  - apply run_reachable. repeat constructor.
  - unfold validSlot. lia.
Defined.

(** C8 (fails on the code): a reset after that session empties the nine
    slots and raises its toast, but revokes only URL 1; URL 0, live when the
    reset was called, is still live after it. *)
Theorem reset_misses_replaced_preview :
  urls replacedStore = {[ 0%nat; 1%nat ]} ∧
  images (exec resetGrid replacedStore) = emptyGrid ∧
  revoked (exec resetGrid replacedStore) = [1%nat] ∧
  urls (exec resetGrid replacedStore) = {[ 0%nat ]} ∧
  toasts (exec resetGrid replacedStore) = toasts replacedStore ++ [gridReset].
Proof. repeat split; by vm_compute. Qed.

(** C9: [downloadGrid] raises the no-images notice exactly when all nine
    slots are empty, and then it touches nothing else: no canvas command is
    issued (no canvas created, no background filled, no decode started) and
    the store and the registry are as before. *)
Theorem export_nothing_to_render env w :
  reachable w →
  let w' := exec (downloadGrid env) w in
  length (images w) = 9%nat ∧
  (toasts w' = toasts w ++ [noImages] ↔ Forall emptySlotP (images w)) ∧
  (Forall emptySlotP (images w) →
     destructive noImages = true ∧ canvas w' = canvas w ∧
     images w' = images w ∧ urls w' = urls w ∧ nextUrl w' = nextUrl w ∧
     revoked w' = revoked w).
Proof.
  intros Hwf%reachable_wf. cbv zeta.
  split; [apply (inv_length _ _ Hwf)|].
  rewrite (Inv_empty_iff _ _ Hwf).
  destruct (decide (previews (images w) = [])) as [Hnone|Hsome].
  - unfold exec. rewrite downloadGrid_nothing by done. done.
  - destruct (downloadGrid_spec env w Hsome) as (_ & _ & Ht & _).
    rewrite Ht. split; [|done]. split; [|done].
    destruct (ctxAvailable env && blobAvailable env).
    + by intros ?%app_singleton_inv.
    + rewrite app_nil_r. by intros ?%app_singleton_ne.
Qed.

Lemma export_nothing_to_render_witness :
  let w' := exec (downloadGrid viewer) initial in
  length (images initial) = 9%nat ∧
  (toasts w' = toasts initial ++ [noImages] ↔ Forall emptySlotP (images initial)) ∧
  (Forall emptySlotP (images initial) →
     destructive noImages = true ∧ canvas w' = canvas initial ∧
     images w' = images initial ∧ urls w' = urls initial ∧
     nextUrl w' = nextUrl initial ∧ revoked w' = revoked initial).
Proof.
  apply (export_nothing_to_render viewer initial). constructor.
Defined.

(** C10: called with an empty file collection, [handleFileSelect] returns at
    once and the world is exactly as it was: the same slots, the same object
    URLs (none created), and the same toasts (none raised, neither a success
    nor an error). *)
Theorem insert_nothing_is_silent slotId w :
  handleFileSelect [] slotId w = (tt, w) ∧
  images (exec (handleFileSelect [] slotId) w) = images w ∧
  nextUrl (exec (handleFileSelect [] slotId) w) = nextUrl w ∧
  urls (exec (handleFileSelect [] slotId) w) = urls w ∧
  toasts (exec (handleFileSelect [] slotId) w) = toasts w.
Proof. done. Qed.

(** * Further properties *)

(** ** The store and the registry over whole sessions *)

(** Whatever the session, the store has nine slots, slot [i] carries the id
    [i], a slot has a file exactly when it has a preview, the previews held
    are live and pairwise distinct, and no object URL is revoked twice or
    live after its revocation. *)
Theorem reachable_store_invariant w :
  reachable w →
  length (images w) = 9%nat ∧
  (∀ (i : nat) s, images w !! i = Some s →
     id s = Z.of_nat i ∧ (file s = None ↔ preview s = None)) ∧
  NoDup (previews (images w)) ∧
  (∀ u, u ∈ previews (images w) → u ∈ urls w) ∧
  (∀ u, u ∈ revoked w → u ∉ urls w) ∧
  NoDup (revoked w).
Proof.
  intros Hwf%reachable_wf.
  split; [apply (inv_length _ _ Hwf)|].
  split.
  { intros i s Hs. split; [by apply (inv_id _ _ Hwf) | by apply (inv_filled _ _ Hwf i)]. }
  split; [by eapply Inv_previews_NoDup|].
  split.
  { intros u (i & s & Hs & Hp)%elem_of_previews. by eapply (inv_live _ _ Hwf). }
  split; [|apply (inv_once _ _ Hwf)].
  intros u Hu. by destruct (inv_revoked _ _ Hwf _ Hu).
Qed.

Lemma reachable_store_invariant_witness :
  length (images gappedStore) = 9%nat ∧
  (∀ (i : nat) s, images gappedStore !! i = Some s →
     id s = Z.of_nat i ∧ (file s = None ↔ preview s = None)) ∧
  NoDup (previews (images gappedStore)) ∧
  (∀ u, u ∈ previews (images gappedStore) → u ∈ urls gappedStore) ∧
  (∀ u, u ∈ revoked gappedStore → u ∉ urls gappedStore) ∧
  NoDup (revoked gappedStore).
Proof.
  apply (reachable_store_invariant gappedStore), gappedStore_reachable.
Defined.

(** Every slot placement leaves is either the slot that was there or one
    that holds an object URL created during the placement. *)
Lemma placeFiles_slot_origin startIndex imageFiles index newImages w (i : nat) s :
  (placeFiles startIndex imageFiles index newImages w).1 !! i = Some s →
  newImages !! i = Some s ∨
  ∃ u, preview s = Some u ∧ file s ≠ None ∧ (nextUrl w ≤ u)%nat.
Proof.
  revert index newImages w.
  induction imageFiles as [|f rest IH]; intros index newImages w Hs; [by left|].
  destruct (Z.lt_ge_cases (startIndex + index) 9) as [Hlt|Hge].
  - rewrite placeFiles_cons_lt in Hs by done.
    apply IH in Hs as [Hs|(u & Hu & Hf & Hle)].
    + unfold array_set in Hs. destruct (0 <=? startIndex + index); [|by left].
      destruct (decide (i = Z.to_nat (startIndex + index))) as [->|Hne].
      * destruct (decide (Z.to_nat (startIndex + index) < length newImages)%nat).
        -- rewrite list_lookup_insert_eq in Hs by done. injection Hs as <-.
           right. exists (nextUrl w). by repeat split.
        -- rewrite list_insert_ge in Hs by lia. by left.
      * rewrite list_lookup_insert_ne in Hs by done. by left.
    + right. exists u. repeat split; [done..|]. simpl in Hle. lia.
  - rewrite placeFiles_cons_ge in Hs by done. by apply IH in Hs.
Qed.

(** The same for a whole [handleFileSelect], whichever way it ends. *)
Lemma handleFileSelect_slot_origin files slotId w (i : nat) s :
  images (exec (handleFileSelect files slotId) w) !! i = Some s →
  images w !! i = Some s ∨
  ∃ u, preview s = Some u ∧ file s ≠ None ∧ (nextUrl w ≤ u)%nat.
Proof.
  unfold exec. handleFileSelect_cases files slotId w; [by left..|].
  simpl. apply placeFiles_slot_origin.
Qed.

Lemma perform_keeps_leaked a w u :
  wf w → validAction a → leaked u w → leaked u (exec (perform a) w).
Proof.
  intros Hwf Hvalid [Hlive Hfree].
  pose proof (inv_issued _ _ Hwf _ Hlive) as Hissued.
  destruct a as [files slotId|slotId| |env]; simpl.
  - destruct (handleFileSelect_never_revokes files slotId w) as (_ & Hsub).
    split; [by apply Hsub|].
    intros (i & s & Hs & Hp)%elem_of_previews.
    apply handleFileSelect_slot_origin in Hs as [Hs|(u' & Hu' & _ & Hle)].
    + apply Hfree, elem_of_previews. eauto.
    + rewrite Hp in Hu'. injection Hu' as <-. lia.
  - unfold exec. rewrite bind_unit. simpl.
    destruct (array_get slotId (images w)) as [s|] eqn:Hs.
    2:{ by rewrite removeImage_outside. }
    assert (u ∉ previews (array_set slotId (emptySlot slotId) (images w))) as Hfree'.
    { intros (i & s' & Hs' & Hp')%elem_of_previews. apply Hfree, elem_of_previews.
      unfold array_set in Hs'. destruct (0 <=? slotId); [|eauto].
      destruct (decide (i = Z.to_nat slotId)) as [->|Hne].
      - destruct (decide (Z.to_nat slotId < length (images w))%nat).
        + rewrite list_lookup_insert_eq in Hs' by done. by injection Hs' as <-.
        + rewrite list_insert_ge in Hs' by lia. eauto.
      - rewrite list_lookup_insert_ne in Hs' by done. eauto. }
    destruct (preview s) as [p|] eqn:Hp.
    + rewrite (removeImage_filled _ _ _ _ Hs Hp). simpl. split; [|done].
      apply elem_of_difference. split; [done|]. intros ->%elem_of_singleton.
      apply Hfree, elem_of_previews. apply array_get_lookup in Hs. eauto.
    + rewrite (removeImage_vacant _ _ _ Hs Hp). simpl. by split.
  - destruct (resetGrid_spec w) as (Hi & Hu & _).
    split.
    + rewrite Hu. apply elem_of_difference. split; [done|].
      by rewrite elem_of_list_to_set.
    + rewrite Hi. intros Hin. by apply elem_of_nil in Hin.
  - destruct (decide (previews (images w) = [])) as [Hnone|Hsome].
    { unfold exec. rewrite downloadGrid_nothing by done. by split. }
    destruct (downloadGrid_spec env w Hsome) as (Hi & _ & _ & Hreg).
    split; [|by rewrite Hi].
    destruct (ctxAvailable env && blobAvailable env).
    + destruct Hreg as (-> & _).
      apply elem_of_difference. split; [set_solver|].
      intros ->%elem_of_singleton. lia.
    + by destruct Hreg as (-> & _).
Qed.

Lemma session_keeps_leaked session w u :
  Forall validAction session → wf w → leaked u w →
  leaked u (exec (forEach perform session) w).
Proof.
  intros Hvalid. revert w.
  induction Hvalid as [|a rest Ha _ IH]; intros w Hwf Hleak; [done|].
  unfold exec. simpl. rewrite bind_unit. apply IH.
  - by apply perform_wf.
  - by apply perform_keeps_leaked.
Qed.

(** A drop on a filled slot of the grid, on any reachable store: the preview
    the slot held stays live, no slot holds it, and it was not revoked. *)
Theorem drop_on_filled_slot_leaks files (t : Z) w s p :
  reachable w → validSlot t → List.filter isImage files ≠ [] →
  array_get t (images w) = Some s → preview s = Some p →
  let w' := exec (handleFileSelect files (Some t)) w in
  leaked p w' ∧ (p ∉ revoked w') ∧ reachable w'.
Proof.
  intros Hreach Ht Hsome Hs Hp. cbv zeta.
  pose proof (reachable_wf _ Hreach) as Hwf.
  destruct (replace_leaves_preview_live files t w s p Hwf Ht Hsome Hs Hp)
    as (Hlive & Hfree & Hrev).
  split; [by split|]. split.
  - rewrite Hrev. intros Hin. destruct (inv_revoked _ _ Hwf _ Hin) as [_ Hnot].
    apply Hnot. apply array_get_lookup in Hs. by eapply (inv_live _ _ Hwf).
  - by apply (reachable_perform w (Select files (Some t))).
Qed.

Lemma drop_on_filled_slot_leaks_witness :
  let w := run [Select [png] None] in
  let w' := exec (handleFileSelect [jpg] (Some 0)) w in
  leaked 0%nat w' ∧ (0%nat ∉ revoked w') ∧ reachable w'.
Proof.
  apply (drop_on_filled_slot_leaks [jpg] 0 (run [Select [png] None])
           {| id := 0; file := Some png; preview := Some 0%nat |} 0%nat).
  - apply run_reachable. repeat constructor.
  - unfold validSlot. lia.
  - vm_compute. discriminate.
  - reflexivity.
  - reflexivity.
Defined.

(** Once an object URL is live and held by no slot, no later action ever
    releases it: it is still live, and still unheld, after every session. *)
Theorem leaked_url_is_never_released session w u :
  reachable w → leaked u w → Forall validAction session →
  leaked u (exec (forEach perform session) w).
Proof.
  intros Hwf%reachable_wf Hleak Hvalid. by apply session_keeps_leaked.
Qed.

Lemma leaked_url_is_never_released_witness :
  leaked 0%nat
    (exec (forEach perform [Remove 0; Select [gif] None; Export viewer; Reset])
       replacedStore).
Proof.
  apply (leaked_url_is_never_released
           [Remove 0; Select [gif] None; Export viewer; Reset] replacedStore 0%nat).
  - apply replacedStore_reachable.
  - split; [by vm_compute|]. apply (bool_decide_unpack _). by vm_compute.
  - repeat constructor. unfold validSlot. lia.
Defined.

(** Every object URL of a tight, well-formed store is held at some index. *)
Lemma tight_held w u :
  tight w → u ∈ urls w →
  ∃ (i : nat) s, images w !! i = Some s ∧ preview s = Some u.
Proof.
  unfold tight. intros -> Hu. rewrite elem_of_list_to_set in Hu.
  by apply elem_of_previews.
Qed.

Lemma tight_intro w :
  wf w →
  (∀ u, u ∈ urls w → ∃ (i : nat) s, images w !! i = Some s ∧ preview s = Some u) →
  tight w.
Proof.
  intros Hwf Hheld. unfold tight. apply set_eq. intros u.
  rewrite elem_of_list_to_set, elem_of_previews. split; [apply Hheld|].
  intros (i & s & Hs & Hp). by eapply (inv_live _ _ Hwf).
Qed.

(** As long as no file is written over a filled slot the registry stays
    tight: every action that writes on empty slots only, or removes, resets
    or exports, leaves live exactly the previews the slots hold. *)
Theorem writing_on_empty_slots_never_leaks a w :
  reachable w → validAction a → tight w → writesOnEmpty a w →
  tight (exec (perform a) w).
Proof.
  intros Hreach Hvalid Htight Hempty.
  pose proof (reachable_wf _ Hreach) as Hwf.
  pose proof (perform_wf a w Hvalid Hwf) as Hwf'.
  apply tight_intro; [done|]. intros u Hu.
  destruct a as [files slotId|slotId| |env]; simpl in *.
  - revert Hu. unfold exec.
    destruct (decide (files = [])) as [->|Hfiles]; [by apply tight_held|].
    destruct (decide (List.filter isImage files = [])) as [Hnone|Hsome].
    { rewrite handleFileSelect_rejected by done. by apply tight_held. }
    destruct (decide (startOf slotId (images w) = -1)) as [Hfull|Hstart].
    { rewrite handleFileSelect_full by done. by apply tight_held. }
    assert (0 ≤ startOf slotId (images w) < 9) as Hrange.
    { apply startOf_valid; [|apply (inv_length _ _ Hwf)|done].
      intros t ->. exact Hvalid. }
    destruct (handleFileSelect_placement files slotId w (inv_length _ _ Hwf) Hsome Hrange)
      as (_ & Hplaced & Hother & _ & Hurls & _).
    fold (exec (handleFileSelect files slotId) w). rewrite Hurls.
    set (start := startOf slotId (images w)) in *.
    set (imageFiles := List.filter isImage files) in *.
    intros [Hnew|Hold]%elem_of_union.
    + rewrite elem_of_list_to_set, elem_of_seq in Hnew.
      unfold placedCount in Hnew.
      destruct (lookup_lt_is_Some_2 imageFiles (u - nextUrl w)%nat) as [f Hf]; [lia|].
      specialize (Hplaced _ _ Hf ltac:(lia)).
      apply array_get_lookup in Hplaced.
      eexists _, _. split; [exact Hplaced|]. simpl. f_equal. lia.
    + destruct (tight_held _ _ Htight Hold) as (i & s & Hs & Hp).
      exists i, s. split; [|done].
      rewrite <- array_get_nat, Hother, array_get_nat; [done|].
      destruct (decide (Z.of_nat i < start ∨
                        start + Z.of_nat (length imageFiles) ≤ Z.of_nat i))
        as [|Hin]; [done|].
      assert (emptySlotP s) as He.
      { apply (Hempty (Z.of_nat i)); [lia | by rewrite array_get_nat]. }
      apply (inv_filled _ _ Hwf _ _ Hs) in He. congruence.
  - revert Hu. unfold exec. rewrite bind_unit. simpl.
    destruct (array_get slotId (images w)) as [s|] eqn:Hs.
    2:{ rewrite removeImage_outside by done. by apply tight_held. }
    assert (∀ (i : nat) s' v, images w !! i = Some s' → preview s' = Some v →
              preview s ≠ Some v →
              array_set slotId (emptySlot slotId) (images w) !! i = Some s')
      as Hkept.
    { intros i s' v Hs' Hp' Hne. unfold array_set.
      destruct (0 <=? slotId) eqn:Hle; [|done].
      rewrite list_lookup_insert_ne; [done|]. intros <-.
      unfold array_get in Hs. rewrite Hle, Hs' in Hs. congruence. }
    destruct (preview s) as [p|] eqn:Hp.
    + rewrite (removeImage_filled _ _ _ _ Hs Hp). simpl.
      intros [Hin Hne]%elem_of_difference.
      destruct (tight_held _ _ Htight Hin) as (i & s' & Hs' & Hp').
      exists i, s'. split; [|done]. apply (Hkept i s' u); [done..|].
      intros [= ->]. apply Hne. by apply elem_of_singleton.
    + rewrite (removeImage_vacant _ _ _ Hs Hp). simpl. intros Hin.
      destruct (tight_held _ _ Htight Hin) as (i & s' & Hs' & Hp').
      exists i, s'. split; [|done]. by apply (Hkept i s' u).
  - destruct (resetGrid_spec w) as (_ & Hurls & _). rewrite Hurls in Hu.
    apply elem_of_difference in Hu as [Hin Hout]. destruct Hout.
    unfold tight in Htight. by rewrite <- Htight.
  - destruct (decide (previews (images w) = [])) as [Hnone|Hsome].
    { revert Hu. unfold exec. rewrite downloadGrid_nothing by done.
      by apply tight_held. }
    destruct (downloadGrid_spec env w Hsome) as (Hi & _ & _ & Hreg).
    rewrite Hi. apply (tight_held _ _ Htight).
    destruct (ctxAvailable env && blobAvailable env).
    + destruct Hreg as (Hurls & _). rewrite Hurls in Hu. set_solver.
    + destruct Hreg as (Hurls & _). by rewrite <- Hurls.
Qed.

Lemma writing_on_empty_slots_never_leaks_witness :
  tight (exec (perform (Select [png; txt] None)) gappedStore).
Proof.
  apply (writing_on_empty_slots_never_leaks (Select [png; txt] None) gappedStore).
  - apply gappedStore_reachable.
  - exact I.
  - by vm_compute.
  - intros j s Hj Hs.
    change (startOf None (images gappedStore)) with 0 in Hj.
    change (Z.of_nat (length (List.filter isImage [png; txt]))) with 1 in Hj.
    assert (j = 0) as -> by lia.
    vm_compute in Hs. by injection Hs as <-.
Defined.

(** One image dropped on a slot of the grid. *)
Lemma handleFileSelect_single f (t : Z) w :
  isImage f = true → 0 ≤ t < 9 →
  exec (handleFileSelect [f] (Some t)) w =
  {| images := array_set t {| id := t; file := Some f; preview := Some (nextUrl w) |}
                 (images w);
     urls := {[ nextUrl w ]} ∪ urls w;
     nextUrl := S (nextUrl w);
     revoked := revoked w;
     toasts := toasts w ++ [uploadSuccess 1];
     canvas := canvas w |}.
Proof.
  intros Hf Ht. unfold exec.
  assert (List.filter isImage [f] = [f]) as Hfilter by (simpl; by rewrite Hf).
  rewrite handleFileSelect_placed; [|by rewrite Hfilter|simpl; lia].
  cbv zeta. rewrite Hfilter. simpl startOf.
  rewrite placeFiles_cons_lt, placeFiles_nil by lia. simpl.
  rewrite Z.add_0_r. f_equal.
  replace (Z.of_nat 1 `min` (9 - t)) with 1 by lia. done.
Qed.

Lemma array_set_twice {A} (i : Z) (v v' : A) (arr : list A) :
  array_set i v (array_set i v' arr) = array_set i v arr.
Proof.
  unfold array_set. destruct (0 <=? i); [|done]. apply list_insert_insert_eq.
Qed.

(** Adding one image to an empty slot and removing it again gives back the
    slots and the live object URLs as they were; what remains of the round
    trip is one URL number used up, its revocation, and the success toast. *)
Theorem insert_then_remove_restores f (t : Z) w s :
  reachable w → validSlot t → isImage f = true →
  array_get t (images w) = Some s → emptySlotP s →
  let w1 := exec (handleFileSelect [f] (Some t)) w in
  let w2 := exec (removeImage t) w1 in
  array_get t (images w1) =
    Some {| id := t; file := Some f; preview := Some (nextUrl w) |} ∧
  images w2 = images w ∧ urls w2 = urls w ∧
  revoked w2 = revoked w ++ [nextUrl w] ∧
  nextUrl w2 = S (nextUrl w) ∧
  toasts w2 = toasts w ++ [uploadSuccess 1].
Proof.
  intros Hwf%reachable_wf Ht Hf Hs He. cbv zeta.
  rewrite (handleFileSelect_single f t w Hf Ht).
  pose proof (array_get_Some _ _ _ Hs) as Hrange.
  assert (array_get t
            (array_set t {| id := t; file := Some f; preview := Some (nextUrl w) |}
               (images w)) =
          Some {| id := t; file := Some f; preview := Some (nextUrl w) |}) as Hnew
    by (by apply array_get_set_eq).
  split; [done|].
  unfold exec. erewrite removeImage_filled; [|exact Hnew|done]. simpl.
  rewrite array_set_twice.
  assert (preview s = None) as Hp.
  { apply array_get_lookup in Hs. by apply (inv_filled _ _ Hwf _ _ Hs). }
  rewrite (array_set_emptySlot_id _ _ _ _ Hwf Hs Hp).
  repeat split.
  assert (nextUrl w ∉ urls w) as Hfresh.
  { intros Hin%(inv_issued _ _ Hwf). lia. }
  set_solver.
Qed.

Lemma insert_then_remove_restores_witness :
  let w1 := exec (handleFileSelect [gif] (Some 0)) gappedStore in
  let w2 := exec (removeImage 0) w1 in
  array_get 0 (images w1) =
    Some {| id := 0; file := Some gif; preview := Some (nextUrl gappedStore) |} ∧
  images w2 = images gappedStore ∧ urls w2 = urls gappedStore ∧
  revoked w2 = revoked gappedStore ++ [nextUrl gappedStore] ∧
  nextUrl w2 = S (nextUrl gappedStore) ∧
  toasts w2 = toasts gappedStore ++ [uploadSuccess 1].
Proof.
  apply (insert_then_remove_restores gif 0 gappedStore (emptySlot 0)).
  - apply gappedStore_reachable.
  - unfold validSlot. lia.
  - reflexivity.
  - reflexivity.
  - reflexivity.
Defined.

(** A reset of any store leaves a store on which a further reset releases
    nothing and changes nothing but the toast log. *)
Theorem reset_twice w :
  let w1 := exec resetGrid w in
  let w2 := exec resetGrid w1 in
  images w1 = emptyGrid ∧ images w2 = emptyGrid ∧
  urls w2 = urls w1 ∧ revoked w2 = revoked w1 ∧ nextUrl w2 = nextUrl w1 ∧
  canvas w2 = canvas w1 ∧ toasts w2 = toasts w1 ++ [gridReset].
Proof.
  cbv zeta.
  destruct (resetGrid_spec w) as (Hi & _).
  destruct (resetGrid_spec (exec resetGrid w)) as (Hi' & Hu' & Hn' & Hr' & Ht' & Hc').
  rewrite Hi in Hu', Hr'. simpl in Hu', Hr'. rewrite app_nil_r in Hr'.
  repeat split; try done. rewrite Hu'. set_solver.
Qed.

(** In a batch with at least one image the files that are not images are
    passed over: the batch does what its images alone would do. *)
Theorem non_images_are_passed_over files slotId w :
  List.filter isImage files ≠ [] →
  handleFileSelect files slotId w =
  handleFileSelect (List.filter isImage files) slotId w.
Proof.
  intros Hsome.
  assert (List.filter isImage (List.filter isImage files) =
          List.filter isImage files) as Hidem.
  { clear Hsome. induction files as [|f rest IH]; [done|]. simpl.
    destruct (isImage f) eqn:Hf; [|done]. simpl. by rewrite Hf, IH. }
  destruct (decide (startOf slotId (images w) = -1)) as [Hfull|Hstart].
  - rewrite !handleFileSelect_full; rewrite ?Hidem; done.
  - rewrite !handleFileSelect_placed; rewrite ?Hidem; done.
Qed.

Lemma non_images_are_passed_over_witness :
  handleFileSelect [txt; png; txt; gif] (Some 7) gappedStore =
  handleFileSelect (List.filter isImage [txt; png; txt; gif]) (Some 7) gappedStore.
Proof.
  apply (non_images_are_passed_over [txt; png; txt; gif] (Some 7) gappedStore).
  vm_compute. discriminate.
Defined.

Lemma resetGrid_releases_held_witness :
  let w' := exec resetGrid replacedStore in
  images w' = emptyGrid ∧ length (images w') = 9%nat ∧
  revoked w' = revoked replacedStore ++ previews (images replacedStore) ∧
  NoDup (previews (images replacedStore)) ∧
  (∀ u, u ∈ previews (images replacedStore) →
     u ∈ urls replacedStore ∧ (u ∉ revoked replacedStore) ∧ (u ∉ urls w')) ∧
  NoDup (revoked w') ∧
  toasts w' = toasts replacedStore ++ [gridReset].
Proof.
  apply (resetGrid_releases_held replacedStore), replacedStore_reachable.
Defined.

(** ** The export *)

Lemma cellOps_Rect env index src x y w h :
  Rect x y w h ∈ cellOps env index src →
  x = (index `rem` gridSize) * (cellSize + gap) ∧
  y = (index `div` gridSize) * (cellSize + gap) ∧
  w = cellSize ∧ h = cellSize.
Proof.
  unfold cellOps. destruct (imageSize env src) as [width height].
  rewrite !elem_of_cons, elem_of_nil.
  intros [?|[?|[Heq|[?|[?|[?|[]]]]]]]; try discriminate.
  by injection Heq as -> -> -> ->.
Qed.

(** The cells of two different slots of the grid, as the export clips to
    them, are 300 x 300 squares inside the 920 x 920 canvas, and they are at
    least the gap of 10 apart, so no image is drawn over another. *)
Theorem cells_apart_inside_canvas env (i j : Z) src src' x y w h x' y' w' h' :
  0 ≤ i < 9 → 0 ≤ j < 9 → i ≠ j →
  Rect x y w h ∈ cellOps env i src →
  Rect x' y' w' h' ∈ cellOps env j src' →
  w = 300 ∧ h = 300 ∧
  0 ≤ x ∧ x + w ≤ canvasSide ∧ 0 ≤ y ∧ y + h ≤ canvasSide ∧
  (x + w + gap ≤ x' ∨ x' + w' + gap ≤ x ∨
   y + h + gap ≤ y' ∨ y' + h' + gap ≤ y).
Proof.
  intros Hi Hj Hne (-> & -> & -> & ->)%cellOps_Rect (-> & -> & -> & ->)%cellOps_Rect.
  unfold canvasSide, gridSize, cellSize, gap.
  assert (i = 0 ∨ i = 1 ∨ i = 2 ∨ i = 3 ∨ i = 4 ∨ i = 5 ∨ i = 6 ∨ i = 7 ∨ i = 8)
    as Hcases by lia.
  assert (j = 0 ∨ j = 1 ∨ j = 2 ∨ j = 3 ∨ j = 4 ∨ j = 5 ∨ j = 6 ∨ j = 7 ∨ j = 8)
    as Hcases' by lia.
  destruct Hcases as [->|[->|[->|[->|[->|[->|[->|[->| ->]]]]]]]];
    destruct Hcases' as [->|[->|[->|[->|[->|[->|[->|[->| ->]]]]]]]];
    try done; vm_compute; intuition (discriminate || lia).
Qed.

Lemma cells_apart_inside_canvas_witness :
  (300 = 300 ∧ 300 = 300 ∧
   0 ≤ 620 ∧ 620 + 300 ≤ canvasSide ∧ 0 ≤ 0 ∧ 0 + 300 ≤ canvasSide ∧
   (620 + 300 + gap ≤ 0 ∨ 0 + 300 + gap ≤ 620 ∨
    0 + 300 + gap ≤ 310 ∨ 310 + 300 + gap ≤ 0)).
Proof.
  apply (cells_apart_inside_canvas viewer 2 3 0%nat 1%nat
           620 0 300 300 0 310 300 300);
    [lia | lia | lia | | ]; vm_compute; set_solver.
Defined.

(** An export leaves the slots alone and leaves no object URL behind: the
    URLs that were live are the ones live afterwards, no preview is revoked,
    and the only URL it ever revokes is the one it created for the download
    in the same run. *)
Theorem export_keeps_store_and_registry env w :
  reachable w →
  let w' := exec (downloadGrid env) w in
  images w' = images w ∧ urls w' = urls w ∧
  (∀ u, u ∈ previews (images w') → u ∈ urls w' ∧ u ∉ revoked w') ∧
  (∀ u, u ∈ revoked w' →
     u ∈ revoked w ∨ (u = nextUrl w ∧ (u ∉ urls w) ∧ Download u ∈ canvas w')).
Proof.
  intros Hreach. cbv zeta.
  pose proof (reachable_wf _ Hreach) as Hwf.
  pose proof (downloadGrid_wf env w Hwf) as Hwf'.
  assert (nextUrl w ∉ urls w) as Hfresh.
  { intros Hin%(inv_issued _ _ Hwf). lia. }
  assert (images (exec (downloadGrid env) w) = images w ∧
          urls (exec (downloadGrid env) w) = urls w ∧
          ∀ u, u ∈ revoked (exec (downloadGrid env) w) →
               u ∈ revoked w ∨
               (u = nextUrl w ∧ (u ∉ urls w) ∧
                Download u ∈ canvas (exec (downloadGrid env) w))) as (Hi & Hu & Hr).
  { destruct (decide (previews (images w) = [])) as [Hnone|Hsome].
    { unfold exec. rewrite downloadGrid_nothing by done. simpl. eauto. }
    destruct (downloadGrid_spec env w Hsome) as (Hi & Hc & _ & Hreg).
    split; [done|]. rewrite Hc. unfold exportOps.
    destruct (ctxAvailable env), (blobAvailable env); simpl in Hreg;
      destruct Hreg as (Hu & _ & Hr); rewrite Hu, Hr.
    - split; [set_solver|]. intros u [Hin| ->%list_elem_of_singleton]%elem_of_app;
        [by left|]. right. repeat split; [done|].
      rewrite !elem_of_app. right. right. by apply list_elem_of_singleton.
    - split; [done|]. by left.
    - split; [done|]. by left.
    - split; [done|]. by left. }
  split; [done|]. split; [done|]. split; [|done].
  intros u (i & s & Hs & Hp)%elem_of_previews.
  split; [by eapply (inv_live _ _ Hwf')|].
  intros Hin. destruct (inv_revoked _ _ Hwf' _ Hin) as [_ Hnot].
  apply Hnot. by eapply (inv_live _ _ Hwf').
Qed.

Lemma export_keeps_store_and_registry_witness :
  let w' := exec (downloadGrid viewer) gappedStore in
  images w' = images gappedStore ∧ urls w' = urls gappedStore ∧
  (∀ u, u ∈ previews (images w') → u ∈ urls w' ∧ u ∉ revoked w') ∧
  (∀ u, u ∈ revoked w' →
     u ∈ revoked gappedStore ∨
     (u = nextUrl gappedStore ∧ (u ∉ urls gappedStore) ∧ Download u ∈ canvas w')).
Proof.
  apply (export_keeps_store_and_registry viewer gappedStore), gappedStore_reachable.
Defined.










(** ** Drag state and the rendered grid *)

Lemma reachable_ids w : reachable w → id <$> images w = seqZ 0 9.
Proof.
  intros Hwf%reachable_wf. apply list_eq. intros i.
  rewrite list_lookup_fmap.
  destruct (images w !! i) as [s|] eqn:Hs; simpl.
  - pose proof (lookup_lt_Some _ _ _ Hs) as Hlt.
    rewrite (inv_length _ _ Hwf) in Hlt.
    rewrite lookup_seqZ_lt by lia. f_equal.
    rewrite (inv_id _ _ Hwf _ _ Hs). lia.
  - apply lookup_ge_None in Hs. rewrite (inv_length _ _ Hwf) in Hs.
    by rewrite lookup_seqZ_ge by lia.
Qed.

(** Dragging over a cell of the grid never changes the store. Over one of
    the cells 1 to 8 it marks that cell, and only that cell, as the drop
    target and leaves the upload zone unmarked; over cell 0 it marks no cell
    at all and marks the upload zone instead. *)
Theorem hover_marks_the_cell_except_the_first ui (t : Z) :
  reachable (world ui) → validSlot t →
  let ui' := handleDragOver (Some t) ui in
  world ui' = world ui ∧ isDragging ui' = true ∧
  (t ≠ 0 →
     uploadZoneDragOver ui' = false ∧
     ∀ (i : nat) c, renderCells ui' !! i = Some c →
       (dragOver c = true ↔ Z.of_nat i = t)) ∧
  (t = 0 →
     uploadZoneDragOver ui' = true ∧
     ∀ c, c ∈ renderCells ui' → dragOver c = false).
Proof.
  intros Hwf%reachable_wf Ht. cbv zeta.
  split; [done|]. split; [done|]. split.
  - intros Hne. unfold uploadZoneDragOver, renderCells, handleDragOver. simpl.
    destruct (decide (t = 0)) as [|_]; [done|]. split; [done|].
    intros i c. rewrite list_lookup_fmap.
    destruct (images (world ui) !! i) as [s|] eqn:Hs; [|done].
    simpl. intros [= <-]. simpl.
    rewrite (inv_id _ _ Hwf _ _ Hs), bool_decide_eq_true.
    split; [by intros [= ->] | by intros ->].
  - intros ->. unfold uploadZoneDragOver, renderCells, handleDragOver. simpl.
    split; [done|].
    intros c (s & -> & _)%list_elem_of_fmap. done.
Qed.

Lemma hover_marks_the_cell_except_the_first_witness :
  let ui := {| world := gappedStore; isDragging := false; dragOverSlot := None |} in
  let ui' := handleDragOver (Some 0) ui in
  world ui' = world ui ∧ isDragging ui' = true ∧
  (0 ≠ 0 →
     uploadZoneDragOver ui' = false ∧
     ∀ (i : nat) c, renderCells ui' !! i = Some c →
       (dragOver c = true ↔ Z.of_nat i = 0)) ∧
  (0 = 0 →
     uploadZoneDragOver ui' = true ∧
     ∀ c, c ∈ renderCells ui' → dragOver c = false).
Proof.
  apply (hover_marks_the_cell_except_the_first
           {| world := gappedStore; isDragging := false; dragOverSlot := None |} 0).
  - apply gappedStore_reachable.
  - unfold validSlot. lia.
Defined.

Lemma renderCells_previews ui :
  omap img (renderCells ui) = previews (images (world ui)).
Proof.
  unfold renderCells, previews.
  induction (images (world ui)) as [|s rest IH]; [done|].
  rewrite fmap_cons. simpl. fold (omap img (renderCell ui <$> rest)).
  fold (omap preview rest). by rewrite IH.
Qed.

(** The grid always renders nine cells whose keys are 0 to 8 in order, hence
    distinct, and whose labels are 1 to 9; a cell is styled as filled exactly
    when it shows a preview with its remove button, and the previews shown
    are those the slots hold, each live. *)
Theorem rendered_grid_is_consistent ui :
  reachable (world ui) →
  let cells := renderCells ui in
  key <$> cells = seqZ 0 9 ∧ NoDup (key <$> cells) ∧
  label <$> cells = seqZ 1 9 ∧
  (∀ c, c ∈ cells → (filled c = true ↔ is_Some (img c))) ∧
  omap img cells = previews (images (world ui)) ∧
  (∀ u, u ∈ omap img cells → u ∈ urls (world ui)).
Proof.
  intros Hreach. cbv zeta.
  pose proof (reachable_wf _ Hreach) as Hwf.
  pose proof (reachable_ids _ Hreach) as Hids.
  assert (key <$> renderCells ui = seqZ 0 9) as Hkeys.
  { unfold renderCells. rewrite <- list_fmap_compose. exact Hids. }
  pose proof (renderCells_previews ui) as Himgs.
  split; [done|]. split; [rewrite Hkeys; apply NoDup_seqZ|]. split.
  { unfold renderCells. rewrite <- list_fmap_compose.
    change (label ∘ renderCell ui) with ((λ z, z + 1) ∘ id).
    rewrite list_fmap_compose, Hids. apply list_eq. intros i.
    rewrite list_lookup_fmap.
    destruct (decide (i < 9)%nat).
    - rewrite !lookup_seqZ_lt by lia. simpl. f_equal. lia.
    - by rewrite !lookup_seqZ_ge by lia. }
  split.
  { intros c (s & -> & [i Hs]%list_elem_of_lookup)%list_elem_of_fmap. simpl.
    rewrite bool_decide_eq_true, <- !not_eq_None_Some.
    by rewrite (inv_filled _ _ Hwf _ _ Hs). }
  split; [done|].
  rewrite Himgs. intros u (i & s & Hs & Hp)%elem_of_previews.
  by eapply (inv_live _ _ Hwf).
Qed.

Lemma rendered_grid_is_consistent_witness :
  let ui := {| world := gappedStore; isDragging := true; dragOverSlot := Some 3 |} in
  let cells := renderCells ui in
  key <$> cells = seqZ 0 9 ∧ NoDup (key <$> cells) ∧
  label <$> cells = seqZ 1 9 ∧
  (∀ c, c ∈ cells → (filled c = true ↔ is_Some (img c))) ∧
  omap img cells = previews (images (world ui)) ∧
  (∀ u, u ∈ omap img cells → u ∈ urls (world ui)).
Proof.
  apply (rendered_grid_is_consistent
           {| world := gappedStore; isDragging := true; dragOverSlot := Some 3 |}).
  apply gappedStore_reachable.
Defined.

(** ** The language context *)

(** A language chosen through the toggle is the one a later visit starts
    with, whatever the browser's own language is: the mount effect of a page
    whose storage holds what [handleSetLanguage] wrote restores that language.
    It restores the language only; the page's document is left as loaded. *)
Theorem saved_language_survives_reload lang c b :
  I18n.storage b = I18n.storage (I18n.browser (I18n.handleSetLanguage lang c)) →
  I18n.language (I18n.mountEffect (I18n.initialContext b)) = lang ∧
  I18n.browser (I18n.mountEffect (I18n.initialContext b)) = b.
Proof.
  simpl. intros Hsaved. unfold I18n.mountEffect, I18n.initialContext. simpl.
  rewrite Hsaved. by destruct lang.
Qed.

Lemma saved_language_survives_reload_witness :
  I18n.language
    (I18n.mountEffect
       (I18n.initialContext
          (I18n.browser
             (I18n.toggleLanguage (I18n.mountEffect (I18n.initialContext firstVisit))))))
  = I18n.zh ∧
  I18n.browser
    (I18n.mountEffect
       (I18n.initialContext
          (I18n.browser
             (I18n.toggleLanguage (I18n.mountEffect (I18n.initialContext firstVisit))))))
  = I18n.browser
      (I18n.toggleLanguage (I18n.mountEffect (I18n.initialContext firstVisit))).
Proof.
  apply (saved_language_survives_reload I18n.zh
           (I18n.mountEffect (I18n.initialContext firstVisit))
           (I18n.browser
              (I18n.toggleLanguage (I18n.mountEffect (I18n.initialContext firstVisit))))).
  reflexivity.
Defined.

(** The toggle always changes the language and the text of its button, and
    toggling twice comes to the same as choosing the current language: the
    language is back, and the storage, the document language, the title and
    the meta tags that exist are those of that language. *)
Theorem toggle_twice c :
  I18n.language (I18n.toggleLanguage c) ≠ I18n.language c ∧
  I18n.toggleLabel (I18n.toggleLanguage c) ≠ I18n.toggleLabel c ∧
  I18n.toggleLanguage (I18n.toggleLanguage c) =
    I18n.handleSetLanguage (I18n.language c) c ∧
  I18n.storage (I18n.browser (I18n.toggleLanguage (I18n.toggleLanguage c))) =
    Some (I18n.tag (I18n.language c)).
Proof.
  destruct c as [lang [saved nav dlang description keywords dtitle]].
  unfold I18n.toggleLanguage, I18n.handleSetLanguage, I18n.toggleLabel. simpl.
  destruct lang, description, keywords; simpl; repeat split; done.
Qed.

Lemma includes_cons s c needle :
  I18n.includes (String c s) needle =
  String.prefix needle (String c s) || I18n.includes s needle.
Proof. done. Qed.

Lemma prefix_String a s1 b s2 :
  String.prefix (String a s1) (String b s2) =
  if Ascii.ascii_dec a b then String.prefix s1 s2 else false.
Proof. done. Qed.

Lemma prefix_empty s : String.prefix "" s = true.
Proof. by destruct s. Qed.

Lemma prefix_zh_two c d s :
  String.prefix "zh" (String c (String d s)) = true ↔
  c = Ascii.ascii_of_nat 122 ∧ d = Ascii.ascii_of_nat 104.
Proof.
  rewrite !prefix_String, prefix_empty.
  destruct (Ascii.ascii_dec _ c) as [<-|Hc].
  - destruct (Ascii.ascii_dec _ d) as [<-|Hd]; [done|].
    split; [done|]. intros [_ ->]. by destruct Hd.
  - split; [done|]. intros [-> _]. by destruct Hc.
Qed.

Lemma prefix_zh_one c : String.prefix "zh" (String c "") = false.
Proof. rewrite prefix_String. by destruct (Ascii.ascii_dec _ c). Qed.

(** The auto-detection takes the browser's language for Chinese exactly when
    its tag has a [z] and an [h] next to each other somewhere, in either
    letter case: at the start, as in zh-CN or ZH-TW, or anywhere else. *)
Theorem detect_chinese_iff s :
  I18n.detect s = I18n.zh ↔
  ∃ before a b rest,
    s = String.append before (String a (String b rest)) ∧
    I18n.lowerChar a = Ascii.ascii_of_nat 122 ∧
    I18n.lowerChar b = Ascii.ascii_of_nat 104.
Proof.
  unfold I18n.detect.
  assert (I18n.includes (I18n.toLowerCase s) "zh" = true ↔
          ∃ before a b rest,
            s = String.append before (String a (String b rest)) ∧
            I18n.lowerChar a = Ascii.ascii_of_nat 122 ∧
            I18n.lowerChar b = Ascii.ascii_of_nat 104) as Hiff.
  { induction s as [|c s IH].
    - split; [done|]. intros (before & a & b & rest & Heq & _).
      by destruct before.
    - change (I18n.toLowerCase (String c s))
        with (String (I18n.lowerChar c) (I18n.toLowerCase s)).
      rewrite includes_cons, orb_true_iff, IH. split.
      + intros [Hhere|(before & a & b & rest & -> & Ha & Hb)].
        * destruct s as [|d s].
          { change (I18n.toLowerCase "") with "" in Hhere.
            by rewrite prefix_zh_one in Hhere. }
          change (I18n.toLowerCase (String d s))
            with (String (I18n.lowerChar d) (I18n.toLowerCase s)) in Hhere.
          apply prefix_zh_two in Hhere as [Hc Hd].
          by exists "", c, d, s.
        * by exists (String c before), a, b, rest.
      + intros (before & a & b & rest & Heq & Ha & Hb).
        destruct before as [|c' before].
        * change (String.append "" (String a (String b rest)))
            with (String a (String b rest)) in Heq.
          injection Heq as -> ->. left.
          change (I18n.toLowerCase (String b rest))
            with (String (I18n.lowerChar b) (I18n.toLowerCase rest)).
          by apply prefix_zh_two.
        * change (String.append (String c' before) (String a (String b rest)))
            with (String c' (String.append before (String a (String b rest))))
            in Heq.
          injection Heq as -> ->. right. by exists before, a, b, rest. }
  destruct (I18n.includes (I18n.toLowerCase s) "zh") eqn:Hinc.
  - split; [intros _; by apply Hiff | done].
  - split; [done|]. intros Hex%Hiff. done.
Qed.

(** Every key the grid component asks for has a text of its own in both
    languages, so no key is ever shown in place of a text, and the two
    tables have the same keys. *)
Theorem translations_cover_the_component :
  Forall (λ key, ∀ lang, ∃ text,
            I18n.translations lang !! key = Some text ∧ text ≠ "" ∧
            I18n.t lang key = text ∧ text ≠ key)
         I18n.componentKeys ∧
  dom (I18n.translations I18n.zh) = dom (I18n.translations I18n.en).
Proof.
  split.
  - unfold I18n.componentKeys.
    repeat (apply Forall_cons; split;
            [intros []; eexists;
             (split; [vm_compute; reflexivity|]);
             (split; [discriminate|]);
             (split; [vm_compute; reflexivity | discriminate])|]).
    constructor.
  - unfold I18n.translations. rewrite !dom_list_to_map_L.
    by replace (I18n.table_zh.*1) with (I18n.table_en.*1) by by vm_compute.
Qed.

